(** * BFI-2-J questionnaire: catalog normalisation, scoring and answering flow

    A shallow embedding of [src/app.tsx]: the fixed domain and facet
    definition lists, the label lookup used by [normalizeItems], the item
    statistics, the score summary computed by the [result] memo of the
    [App] component, and the five event handlers of the answering flow.

    Numbers.  Item numbers, ratings, sums and counts are JavaScript numbers
    that only ever hold small integers here; they are embedded as [Z].  The
    one real division, in [calculateAverage], is embedded as the exact
    rational quotient: both operands are integers far below 2^53, so the
    double the program obtains is the correctly rounded image of that
    rational (and bounds by the representable numbers 1 and 5 carry over).

    The catalog.  [questionnaireItems] is [normalizeItems] applied to the
    static data of [bfi_items.json]; the development is parametric in it,
    and the properties that need its item numbers to be unique keys say
    so. *)

From stdpp Require Import base gmap strings list fin_maps pretty.
From Stdlib Require Import ZArith QArith Lia.

Close Scope Q_scope.
Open Scope Z_scope.

(** ** Category definitions *)

Inductive DomainId : Set :=
| extraversion | agreeableness | conscientiousness
| negativeEmotionality | openness.

Inductive FacetId : Set :=
| sociability | assertiveness | energyLevel
| compassion | respectfulness | trust
| organization | productivity | responsibility
| anxiety | depression | emotionalVolatility
| intellectualCuriosity | aestheticSensitivity | creativeImagination.

#[global] Instance DomainId_eq_dec : EqDecision DomainId.
Proof. solve_decision. Defined.

#[global] Instance FacetId_eq_dec : EqDecision FacetId.
Proof. solve_decision. Defined.

Definition DomainId_enum : list DomainId :=
  [extraversion; agreeableness; conscientiousness;
   negativeEmotionality; openness].

Definition FacetId_enum : list FacetId :=
  [sociability; assertiveness; energyLevel;
   compassion; respectfulness; trust;
   organization; productivity; responsibility;
   anxiety; depression; emotionalVolatility;
   intellectualCuriosity; aestheticSensitivity; creativeImagination].

Definition DomainId_rank (d : DomainId) : nat :=
  match d with
  | extraversion => 0 | agreeableness => 1 | conscientiousness => 2
  | negativeEmotionality => 3 | openness => 4
  end%nat.

Definition FacetId_rank (f : FacetId) : nat :=
  match f with
  | sociability => 0 | assertiveness => 1 | energyLevel => 2
  | compassion => 3 | respectfulness => 4 | trust => 5
  | organization => 6 | productivity => 7 | responsibility => 8
  | anxiety => 9 | depression => 10 | emotionalVolatility => 11
  | intellectualCuriosity => 12 | aestheticSensitivity => 13
  | creativeImagination => 14
  end%nat.

#[global] Instance DomainId_countable : Countable DomainId.
Proof.
  refine (inj_countable' DomainId_rank
            (fun n => nth n DomainId_enum extraversion) _).
  by intros [].
Defined.

#[global] Instance FacetId_countable : Countable FacetId.
Proof.
  refine (inj_countable' FacetId_rank
            (fun n => nth n FacetId_enum sociability) _).
  by intros [].
Defined.

(** One entry of a definition list: [{ id, label }]. *)
Record CategoryDef (Id : Type) : Type := mkDef {
  def_id : Id;
  def_label : string
}.
Arguments mkDef {Id} _ _.
Arguments def_id {Id} _.
Arguments def_label {Id} _.

Definition domainDefinitions : list (CategoryDef DomainId) :=
  [ mkDef extraversion "外向性";
    mkDef agreeableness "協調性";
    mkDef conscientiousness "勤勉性";
    mkDef negativeEmotionality "否定的情動性";
    mkDef openness "開放性" ].

Definition facetDefinitions : list (CategoryDef FacetId) :=
  [ mkDef sociability "社交性";
    mkDef assertiveness "自己主張性";
    mkDef energyLevel "活力";
    mkDef compassion "思いやり";
    mkDef respectfulness "敬意";
    mkDef trust "信用";
    mkDef organization "秩序";
    mkDef productivity "生産性";
    mkDef responsibility "責任感";
    mkDef anxiety "不安";
    mkDef depression "抑うつ";
    mkDef emotionalVolatility "情緒不安定性";
    mkDef intellectualCuriosity "知的好奇心";
    mkDef aestheticSensitivity "美的感性";
    mkDef creativeImagination "創造的想像力" ].

(** ** Plain objects used as label maps

    [buildIdByLabelMap] starts from the object literal [{}] and assigns one
    own property per definition.  A property read [map[key]] on such an
    object first looks at the own properties and then follows the prototype
    link to [Object.prototype], whose members are functions (and, for
    [__proto__], the prototype object itself). *)

Definition objectPrototypeKeys : list string :=
  [ "constructor"; "hasOwnProperty"; "isPrototypeOf";
    "propertyIsEnumerable"; "toLocaleString"; "toString"; "valueOf";
    "__proto__"; "__defineGetter__"; "__defineSetter__";
    "__lookupGetter__"; "__lookupSetter__" ].

(** What reading a property of a label map evaluates to. *)
Inductive PropertyValue (Id : Type) : Type :=
| OwnId (id : Id)
| Inherited (name : string)
| Undefined.
Arguments OwnId {Id} _.
Arguments Inherited {Id} _.
Arguments Undefined {Id}.

(** JavaScript truthiness of such a value: ids are non-empty strings and
    inherited members are objects, both truthy; [undefined] is falsy. *)
Definition truthy {Id : Type} (v : PropertyValue Id) : bool :=
  match v with
  | OwnId _ | Inherited _ => true
  | Undefined => false
  end.

(** The own properties of the label map.  Every label of the two
    definition lists is an ordinary key; a label [__proto__] would reach
    the inherited setter instead of creating an own property, and is
    outside what this definition describes. *)
Definition buildIdByLabelMap {Id : Type}
    (definitions : list (CategoryDef Id)) : gmap string Id :=
  foldl (fun map definition => <[def_label definition := def_id definition]> map)
        ∅ definitions.

Definition getProperty {Id : Type} (map : gmap string Id) (key : string)
    : PropertyValue Id :=
  match map !! key with
  | Some id => OwnId id
  | None =>
      if bool_decide (key ∈ objectPrototypeKeys) then Inherited key
      else Undefined
  end.

Definition domainIdByLabel : gmap string DomainId :=
  buildIdByLabelMap domainDefinitions.
Definition facetIdByLabel : gmap string FacetId :=
  buildIdByLabelMap facetDefinitions.

(** ** Items *)

Record RawItem : Type := mkRawItem {
  raw_number : Z;
  raw_text : string;
  raw_domain : string;
  raw_facet : string;
  raw_reverse : bool
}.

(** The object pushed by [normalizeItems]; the two category fields hold
    whatever the label lookups evaluated to. *)
Record NormalizedItem : Type := mkNormalizedItem {
  n_number : Z;
  n_text : string;
  n_domainId : PropertyValue DomainId;
  n_facetId : PropertyValue FacetId;
  n_reverse : bool
}.

(** An item as its declared type [Item] describes it. *)
Record Item : Type := mkItem {
  number : Z;
  text : string;
  domainId : DomainId;
  facetId : FacetId;
  reverse : bool
}.

#[global] Instance Item_eq_dec : EqDecision Item.
Proof. solve_decision. Defined.

(** Outcome of a call that may throw. *)
Inductive Outcome (A : Type) : Type :=
| Returned (a : A)
| Threw (message : string).
Arguments Returned {A} _.
Arguments Threw {A} _.

Definition normalizeStep (normalized : list NormalizedItem) (rawItem : RawItem)
    : Outcome (list NormalizedItem) :=
  let domainId := getProperty domainIdByLabel (raw_domain rawItem) in
  if negb (truthy domainId) then
    Threw ("Unknown domain label: " +:+ raw_domain rawItem)
  else
    let facetId := getProperty facetIdByLabel (raw_facet rawItem) in
    if negb (truthy facetId) then
      Threw ("Unknown facet label: " +:+ raw_facet rawItem)
    else
      Returned (normalized ++
                [ {| n_number := raw_number rawItem;
                     n_text := raw_text rawItem;
                     n_domainId := domainId;
                     n_facetId := facetId;
                     n_reverse := raw_reverse rawItem |} ]).

Fixpoint normalizeLoop (normalized : list NormalizedItem)
    (rawList : list RawItem) : Outcome (list NormalizedItem) :=
  match rawList with
  | [] => Returned normalized
  | rawItem :: rest =>
      match normalizeStep normalized rawItem with
      | Returned normalized' => normalizeLoop normalized' rest
      | Threw message => Threw message
      end
  end.

Definition normalizeItems (rawList : list RawItem)
    : Outcome (list NormalizedItem) :=
  normalizeLoop [] rawList.

(** A normalised item inhabits the declared [Item] type exactly when both
    category fields are ids. *)
Definition asItem (n : NormalizedItem) : option Item :=
  match n_domainId n, n_facetId n with
  | OwnId d, OwnId f =>
      Some {| number := n_number n; text := n_text n;
              domainId := d; facetId := f; reverse := n_reverse n |}
  | _, _ => None
  end.

(** The labels a raw item may carry according to the definition lists. *)
Definition knownDomainLabel (label : string) : Prop :=
  label ∈ def_label <$> domainDefinitions.
Definition knownFacetLabel (label : string) : Prop :=
  label ∈ def_label <$> facetDefinitions.

Definition knownLabels (rawItem : RawItem) : Prop :=
  knownDomainLabel (raw_domain rawItem) ∧ knownFacetLabel (raw_facet rawItem).

#[global] Instance knownLabels_dec rawItem : Decision (knownLabels rawItem).
Proof. unfold knownLabels, knownDomainLabel, knownFacetLabel. apply _. Defined.


(** ** Numbers produced by the one division of the program

    A quotient of two integer-valued numbers is a rational, except that a
    zero divisor gives [Infinity], [-Infinity] or [NaN]. *)

Inductive Number : Type :=
| Finite (q : Q)
| NonFinite.

Definition divide (sum count : Z) : Number :=
  if count =? 0 then NonFinite
  else Finite (inject_Z sum / inject_Z count)%Q.

Definition calculateAverage (sum count : Z) : Number :=
  if count =? 0 then Finite 0%Q else divide sum count.

Definition REVERSE_BASE : Z := 6.

Definition reverseScore (value : Z) : Z := REVERSE_BASE - value.

Definition RATING_MIN : Z := 1.
Definition RATING_MAX : Z := 5.

(** The rating of each radio button, as [ratingEntries] enumerates them. *)
Definition ratingValues : list Z :=
  (fun offset => RATING_MIN + Z.of_nat offset)
    <$> seq 0 (Z.to_nat (RATING_MAX - RATING_MIN + 1)).

(** ** Per-category accumulators *)

(** The own properties of a zero map; the ids are those of [DomainId] and
    [FacetId], all ordinary keys. *)
Definition buildZeroMap {Id : Type} `{Countable Id}
    (definitions : list (CategoryDef Id)) : gmap Id Z :=
  foldl (fun map definition => <[def_id definition := 0]> map) ∅ definitions.

Definition createZeroDomainMap : gmap DomainId Z := buildZeroMap domainDefinitions.
Definition createZeroFacetMap : gmap FacetId Z := buildZeroMap facetDefinitions.

(** [map[key]] and [map[key] += amount] on an accumulator.  The zero maps
    hold every id ([createZeroDomainMap_lookup], [createZeroFacetMap_lookup])
    and nothing removes a key, so the absent-key case of either operation
    is never exercised. *)
Definition readAt {Id : Type} `{Countable Id}
    (map : gmap Id Z) (key : Id) : Z :=
  default 0 (map !! key).

Definition addAt {Id : Type} `{Countable Id}
    (map : gmap Id Z) (key : Id) (amount : Z) : gmap Id Z :=
  alter (fun current => current + amount) key map.

Module Totals.
Record t : Type := mk {
  domains : gmap DomainId Z;
  facets : gmap FacetId Z
}.
End Totals.

Definition createInitialTotals : Totals.t :=
  {| Totals.domains := createZeroDomainMap;
     Totals.facets := createZeroFacetMap |}.

Module ItemStats.
Record t : Type := mk {
  domainCounts : gmap DomainId Z;
  facetCounts : gmap FacetId Z
}.
End ItemStats.

Definition countItem (stats : ItemStats.t) (item : Item) : ItemStats.t :=
  {| ItemStats.domainCounts :=
       addAt (ItemStats.domainCounts stats) (domainId item) 1;
     ItemStats.facetCounts :=
       addAt (ItemStats.facetCounts stats) (facetId item) 1 |}.

Definition createItemStats (items : list Item) : ItemStats.t :=
  foldl countItem
        {| ItemStats.domainCounts := createZeroDomainMap;
           ItemStats.facetCounts := createZeroFacetMap |}
        items.

Record ScoreEntry (Id : Type) : Type := mkScoreEntry {
  id : Id;
  label : string;
  value : Number
}.
Arguments mkScoreEntry {Id} _ _ _.
Arguments id {Id} _.
Arguments label {Id} _.
Arguments value {Id} _.

Module ScoreSummary.
Record t : Type := mk {
  domains : list (ScoreEntry DomainId);
  facets : list (ScoreEntry FacetId)
}.
End ScoreSummary.

(** The loop body of the [result] memo: an item without a truthy response
    is passed over ([continue]). *)
Definition accumulate (responses : gmap Z Z) (totals : Totals.t) (item : Item)
    : Totals.t :=
  match responses !! number item with
  | None => totals
  | Some selected =>
      if selected =? 0 then totals
      else
        let score :=
          if reverse item then reverseScore selected else selected in
        {| Totals.domains := addAt (Totals.domains totals) (domainId item) score;
           Totals.facets := addAt (Totals.facets totals) (facetId item) score |}
  end.

(** The two loops that push one entry per definition. *)
Definition pushScores {Id : Type} `{Countable Id}
    (definitions : list (CategoryDef Id)) (sums counts : gmap Id Z)
    : list (ScoreEntry Id) :=
  foldl (fun scores definition =>
           scores ++
           [ {| id := def_id definition;
                label := def_label definition;
                value := calculateAverage (readAt sums (def_id definition))
                                          (readAt counts (def_id definition)) |} ])
        [] definitions.

Inductive Stage : Set := stage_intro | stage_question | stage_result.

#[global] Instance Stage_eq_dec : EqDecision Stage.
Proof. solve_decision. Defined.

(** The three state cells of the [App] component. *)
Record State : Type := mkState {
  stage : Stage;
  currentIndex : nat;
  responses : gmap Z Z
}.

Definition initialState : State :=
  {| stage := stage_intro; currentIndex := 0%nat; responses := ∅ |}.

Inductive Action : Type :=
| Start
| Select (rating : Z)
| Next
| Previous
| Restart.

(** The ratings the rendered radio buttons can pass to [handleSelect]. *)
Definition offeredAction (action : Action) : Prop :=
  match action with
  | Select rating => rating ∈ ratingValues
  | _ => True
  end.

#[global] Instance offeredAction_dec action : Decision (offeredAction action).
Proof. destruct action; simpl; apply _. Defined.

Definition isNavigation (action : Action) : Prop :=
  match action with
  | Next | Previous => True
  | _ => False
  end.

#[global] Instance isNavigation_dec action : Decision (isNavigation action).
Proof. destruct action; simpl; apply _. Defined.

Section App.

(** The normalised catalog, [normalizeItems(rawItems)]. *)
Variable questionnaireItems : list Item.

Definition totalItems : nat := length questionnaireItems.

Definition domainCounts : gmap DomainId Z :=
  ItemStats.domainCounts (createItemStats questionnaireItems).
Definition facetCounts : gmap FacetId Z :=
  ItemStats.facetCounts (createItemStats questionnaireItems).

Definition currentItem (st : State) : option Item :=
  questionnaireItems !! currentIndex st.

Definition answeredCount (responses : gmap Z Z) : nat := size responses.

Definition allAnswered (responses : gmap Z Z) : bool :=
  bool_decide (answeredCount responses = totalItems).

Definition handleStart (st : State) : State :=
  {| stage := stage_question;
     currentIndex := currentIndex st;
     responses := responses st |}.

Definition handleSelect (rating : Z) (st : State) : State :=
  match currentItem st with
  | None => st
  | Some item =>
      {| stage := stage st;
         currentIndex := currentIndex st;
         responses := <[number item := rating]> (responses st) |}
  end.

Definition handleNext (st : State) : State :=
  match currentItem st with
  | None => st
  | Some item =>
      match responses st !! number item with
      | None => st
      | Some selected =>
          if selected =? 0 then st
          else
            let nextIndex := S (currentIndex st) in
            if (totalItems <=? nextIndex)%nat then
              {| stage := stage_result;
                 currentIndex := currentIndex st;
                 responses := responses st |}
            else
              {| stage := stage st;
                 currentIndex := nextIndex;
                 responses := responses st |}
      end
  end.

Definition handlePrevious (st : State) : State :=
  if (currentIndex st =? 0)%nat then st
  else
    let nextIndex := Z.of_nat (currentIndex st) - 1 in
    if nextIndex <? 0 then st
    else
      {| stage := stage st;
         currentIndex := Z.to_nat nextIndex;
         responses := responses st |}.

Definition handleRestart (st : State) : State :=
  {| stage := stage_intro; currentIndex := 0%nat; responses := ∅ |}.

(** The [result] memo: [None] stands for [null]. *)
Definition result (responses : gmap Z Z) : option ScoreSummary.t :=
  if negb (allAnswered responses) then None
  else
    let totals :=
      foldl (accumulate responses) createInitialTotals questionnaireItems in
    let domainScores :=
      pushScores domainDefinitions (Totals.domains totals) domainCounts in
    let facetScores :=
      pushScores facetDefinitions (Totals.facets totals) facetCounts in
    Some {| ScoreSummary.domains := domainScores;
            ScoreSummary.facets := facetScores |}.

(** One user action handed to its handler. *)
Definition handle (st : State) (action : Action) : State :=
  match action with
  | Start => handleStart st
  | Select rating => handleSelect rating st
  | Next => handleNext st
  | Previous => handlePrevious st
  | Restart => handleRestart st
  end.

(** Actions are processed one after the other, each to completion. *)
Definition run (st : State) (actions : list Action) : State :=
  foldl handle st actions.

(** *** Vocabulary of the properties *)

Definition isRating (rating : Z) : Prop := 1 <= rating <= 5.

(** A response set with exactly one rating in 1..5 per item number. *)
Definition complete (responses : gmap Z Z) : Prop :=
  dom responses = list_to_set (number <$> questionnaireItems)
  ∧ map_Forall (fun _ rating => isRating rating) responses.

#[global] Instance isRating_dec rating : Decision (isRating rating).
Proof. unfold isRating. apply _. Defined.

#[global] Instance complete_dec responses : Decision (complete responses).
Proof. unfold complete. apply _. Defined.

(** The rating recorded for an item (0 when there is none). *)
Definition ratingOf (responses : gmap Z Z) (item : Item) : Z :=
  default 0 (responses !! number item).

Definition effectiveScore (responses : gmap Z Z) (item : Item) : Z :=
  if reverse item then 6 - ratingOf responses item
  else ratingOf responses item.

Definition itemsOfDomain (d : DomainId) : list Item :=
  filter (fun item => domainId item = d) questionnaireItems.

Definition itemsOfFacet (f : FacetId) : list Item :=
  filter (fun item => facetId item = f) questionnaireItems.

(** The rating shown as selected on the current question. *)
Definition selectedRating (st : State) : option Z :=
  match currentItem st with
  | None => None
  | Some item => responses st !! number item
  end.

(** What holds of the state cells after any run of the handlers: the
    items before the current one are answered, the result stage is only
    entered with every item answered, and every entry of the response
    map is a rating filed under an item number. *)
Definition flowInvariant (st : State) : Prop :=
  (∀ j item, (j < currentIndex st)%nat → questionnaireItems !! j = Some item →
     is_Some (responses st !! number item))
  ∧ (stage st = stage_result →
     ∀ item, item ∈ questionnaireItems →
       is_Some (responses st !! number item))
  ∧ (∀ n rating, responses st !! n = Some rating →
       n ∈ number <$> questionnaireItems ∧ isRating rating).

Definition reachable (st : State) : Prop :=
  ∃ actions, Forall offeredAction actions ∧ st = run initialState actions.

End App.

Definition sumZ (l : list Z) : Z := foldr Z.add 0 l.

(** What the accumulation loop adds for an item: nothing when the item is
    passed over, its rating or reversed rating otherwise. *)
Definition contribution (responses : gmap Z Z) (item : Item) : Z :=
  match responses !! number item with
  | None => 0
  | Some selected =>
      if selected =? 0 then 0
      else if reverse item then reverseScore selected else selected
  end.

(** The entry a category receives: the sum of the contributions of its
    items over the number of its items. *)
Definition domainEntry (items : list Item) (responses : gmap Z Z)
    (definition : CategoryDef DomainId) : ScoreEntry DomainId :=
  {| id := def_id definition;
     label := def_label definition;
     value :=
       calculateAverage
         (sumZ (contribution responses <$> itemsOfDomain items (def_id definition)))
         (Z.of_nat (length (itemsOfDomain items (def_id definition)))) |}.

Definition facetEntry (items : list Item) (responses : gmap Z Z)
    (definition : CategoryDef FacetId) : ScoreEntry FacetId :=
  {| id := def_id definition;
     label := def_label definition;
     value :=
       calculateAverage
         (sumZ (contribution responses <$> itemsOfFacet items (def_id definition)))
         (Z.of_nat (length (itemsOfFacet items (def_id definition)))) |}.

(** A response set that rates every item of the catalog. *)
Definition answersAll (items : list Item) (responses : gmap Z Z) : Prop :=
  ∀ item, item ∈ items →
    ∃ rating, responses !! number item = Some rating ∧ isRating rating.

Definition mean (l : list Z) : Q :=
  (inject_Z (sumZ l) / inject_Z (Z.of_nat (length l)))%Q.

(** A summary is produced in which the items without a response were
    passed over while the denominators are the full item counts. *)
Definition scoredWithSkips (items : list Item) (responses : gmap Z Z) : Prop :=
  result items responses
  = Some {| ScoreSummary.domains :=
              domainEntry items responses <$> domainDefinitions;
            ScoreSummary.facets :=
              facetEntry items responses <$> facetDefinitions |}.

(** [responses'] keeps every rating [responses] records for a catalog item. *)
Definition keepsRecorded (items : list Item)
    (responses responses' : gmap Z Z) : Prop :=
  Forall (fun other =>
            responses !! number other = None
            ∨ responses' !! number other = responses !! number other)
         items.

#[global] Instance keepsRecorded_dec items responses responses' :
  Decision (keepsRecorded items responses responses').
Proof. unfold keepsRecorded. apply _. Defined.

(** ** Sample data *)

(** The two-item catalog of the end-to-end scenario. *)
Definition sampleItems : list Item :=
  [ mkItem 1 "A" extraversion sociability false;
    mkItem 2 "B" extraversion sociability true ].

Definition sampleResponses : gmap Z Z := <[2 := 2]> (<[1 := 4]> ∅).

Definition partialResponses : gmap Z Z := <[1 := 4]> ∅.

(** As many entries as items, one of them under a number no item has. *)
Definition foreignResponses : gmap Z Z := <[99 := 3]> (<[1 := 4]> ∅).

Definition fullResponses : gmap Z Z := <[2 := 5]> (<[1 := 4]> ∅).

(** The summary of the end-to-end scenario, as [result] computes it. *)
Definition sampleSummary : ScoreSummary.t :=
  Eval vm_compute in
    default (ScoreSummary.mk [] []) (result sampleItems sampleResponses).

(** A raw item whose domain label is the name of an inherited member. *)
Definition inheritedLabelItem : RawItem :=
  mkRawItem 1 "A" "constructor" "社交性" false.

(** ** Further vocabulary: accepted labels, the rendered page *)

(** Labels a raw item gets past the guards of [normalizeItems] with: the
    labels of the definition list and the names of inherited members. *)
Definition acceptedDomainLabel (label : string) : Prop :=
  knownDomainLabel label ∨ label ∈ objectPrototypeKeys.
Definition acceptedFacetLabel (label : string) : Prop :=
  knownFacetLabel label ∨ label ∈ objectPrototypeKeys.

#[global] Instance acceptedDomainLabel_dec label :
  Decision (acceptedDomainLabel label).
Proof. unfold acceptedDomainLabel, knownDomainLabel. apply _. Defined.

#[global] Instance acceptedFacetLabel_dec label :
  Decision (acceptedFacetLabel label).
Proof. unfold acceptedFacetLabel, knownFacetLabel. apply _. Defined.

(** How a normalised item relates to the raw item it was made from. *)
Definition normalizedFrom (rawItem : RawItem) (n : NormalizedItem) : Prop :=
  n_number n = raw_number rawItem
  ∧ n_text n = raw_text rawItem
  ∧ n_reverse n = raw_reverse rawItem
  ∧ (∃ definition, definition ∈ domainDefinitions
                   ∧ def_label definition = raw_domain rawItem
                   ∧ n_domainId n = OwnId (def_id definition))
  ∧ (∃ definition, definition ∈ facetDefinitions
                   ∧ def_label definition = raw_facet rawItem
                   ∧ n_facetId n = OwnId (def_id definition)).

(** [ratingLabels[value]]: [None] stands for [undefined]. *)
Definition ratingLabels (value : Z) : option string :=
  match value with
  | 1 => Some "全くあてはまらない"
  | 2 => Some "あてはまらない"
  | 3 => Some "どちらともいえない"
  | 4 => Some "あてはまる"
  | 5 => Some "とてもよくあてはまる"
  | _ => None
  end.

Definition ratingEntries : list (Z * option string) :=
  (fun offset =>
     let value := RATING_MIN + Z.of_nat offset in (value, ratingLabels value))
    <$> seq 0 (Z.to_nat (RATING_MAX - RATING_MIN + 1)).

(** One radio button of the scale. *)
Record RadioOption : Type := mkRadioOption {
  option_value : Z;
  option_label : option string;
  option_checked : bool
}.

(** The question page: progress text, question text, the radio buttons
    and the [disabled] flags of the two navigation buttons. *)
Record QuestionPage : Type := mkQuestionPage {
  progress : string;
  questionText : string;
  options : list RadioOption;
  previousDisabled : bool;
  nextDisabled : bool
}.

(** What the component returns: the intro page with its start button, the
    result page with the two score lists and the restart button, nothing
    at all ([return null]), or the question page. *)
Inductive Page : Type :=
| IntroPage
| ResultPage (summary : ScoreSummary.t)
| NoPage
| Question (page : QuestionPage).

(** [!selectedRating] *)
Definition noSelection (selectedRating : option Z) : bool :=
  match selectedRating with
  | None => true
  | Some selected => selected =? 0
  end.

Definition renderQuestion (items : list Item) (st : State) (item : Item)
    : QuestionPage :=
  let selectedRating := responses st !! number item in
  {| progress :=
       pretty (currentIndex st + 1)%nat +:+ " / " +:+ pretty (totalItems items);
     questionText := text item;
     options :=
       (fun entry =>
          {| option_value := entry.1;
             option_label := entry.2;
             option_checked := bool_decide (selectedRating = Some entry.1) |})
         <$> ratingEntries;
     previousDisabled := (currentIndex st =? 0)%nat;
     nextDisabled := noSelection selectedRating |}.

Definition render (items : list Item) (st : State) : Page :=
  match stage st with
  | stage_intro => IntroPage
  | _ =>
      match (if decide (stage st = stage_result)
             then result items (responses st) else None) with
      | Some summary => ResultPage summary
      | None =>
          match currentItem items st with
          | None => NoPage
          | Some item => Question (renderQuestion items st item)
          end
      end
  end.

(** The handler calls a page can trigger: the start button of the intro
    page, the restart button of the result page, and on the question page
    one [handleSelect] per radio button plus the two navigation buttons
    unless they are disabled. *)
Definition offers (page : Page) (action : Action) : Prop :=
  match page, action with
  | IntroPage, Start => True
  | ResultPage _, Restart => True
  | Question q, Select rating => rating ∈ option_value <$> options q
  | Question q, Previous => previousDisabled q = false
  | Question q, Next => nextDisabled q = false
  | _, _ => False
  end.

#[global] Instance offers_dec page action : Decision (offers page action).
Proof. destruct page, action; simpl; apply _. Defined.

(** A sequence of actions each of which the page rendered at that moment
    offers. *)
Fixpoint offeredRun (items : list Item) (st : State) (actions : list Action)
    : Prop :=
  match actions with
  | [] => True
  | action :: rest =>
      offers (render items st) action
      ∧ offeredRun items (handle items st action) rest
  end.

#[global] Instance offeredRun_dec items st actions :
  Decision (offeredRun items st actions).
Proof.
  revert st. induction actions as [|action rest IH]; intros st; simpl; apply _.
Defined.

(** Answering every question in turn: start, then select and next for
    each rating of the list. *)
Definition answerInTurn (ratings : list Z) : list Action :=
  Start :: concat ((fun rating => [Select rating; Next]) <$> ratings).

(** The responses after recording one rating per item, in list order. *)
Definition recordAll (responses : gmap Z Z) (answers : list (Item * Z))
    : gmap Z Z :=
  foldl (fun responses answer => <[number answer.1 := answer.2]> responses)
        responses answers.

(** The response set in which every rating is replaced by its reverse. *)
Definition mirrored (responses : gmap Z Z) : gmap Z Z :=
  reverseScore <$> responses.

(** ** Further sample data *)

Definition rawA : RawItem := mkRawItem 1 "A" "外向性" "社交性" false.
Definition rawB : RawItem := mkRawItem 2 "B" "外向性" "社交性" true.

(** A raw item with a known domain label and a misspelt facet label. *)
Definition rawMisspelt : RawItem := mkRawItem 3 "C" "協調性" "思いや" false.

(** The second question of the sample catalog, answered with 2 after the
    first one was answered with 4. *)
Definition secondAnswered : State :=
  {| stage := stage_question; currentIndex := 1%nat;
     responses := sampleResponses |}.

Definition firstAnswered : State :=
  {| stage := stage_question; currentIndex := 0%nat;
     responses := partialResponses |}.

(** Both sample items answered with the middle rating. *)
Definition neutralResponses : gmap Z Z := <[2 := 3]> (<[1 := 3]> ∅).

Definition neutralSummary : ScoreSummary.t :=
  Eval vm_compute in
    default (ScoreSummary.mk [] []) (result sampleItems neutralResponses).


(** * Properties *)

(** Closed decidable facts about the sample data are settled by evaluation. *)
Ltac by_evaluation := apply (bool_decide_unpack _); vm_compute; exact I.

(** ** Label maps and normalisation *)

Section LabelMaps.
Context {Id : Type}.

Lemma buildIdByLabelMap_fold (definitions : list (CategoryDef Id))
    (map : gmap string Id) (key : string) :
  is_Some (foldl (fun map definition =>
                    <[def_label definition := def_id definition]> map)
                 map definitions !! key)
  ↔ is_Some (map !! key) ∨ key ∈ def_label <$> definitions.
Proof.
  revert map. induction definitions as [|definition rest IH]; intros map; simpl.
  - rewrite elem_of_nil. tauto.
  - rewrite IH, elem_of_cons, lookup_insert_is_Some.
    destruct (decide (def_label definition = key)) as [Heq|Hne].
    + split; [intros _; right; left; done | intros _; left; left; done].
    + split.
      * intros [[?|[_ ?]]|?]; [contradiction | left; done | right; right; done].
      * intros [?|[?|?]]; [left; right; done | congruence | right; done].
Qed.

Lemma buildIdByLabelMap_is_Some (definitions : list (CategoryDef Id))
    (key : string) :
  is_Some (buildIdByLabelMap definitions !! key)
  ↔ key ∈ def_label <$> definitions.
Proof.
  unfold buildIdByLabelMap. rewrite buildIdByLabelMap_fold.
  rewrite lookup_empty. split; [intros [[? ?]|?]; [discriminate | done] | auto].
Qed.

(** A label passes the guard of [normalizeItems] when it is a label of
    the definition list or the name of an inherited member. *)
Lemma truthy_getProperty (definitions : list (CategoryDef Id)) (key : string) :
  truthy (getProperty (buildIdByLabelMap definitions) key) = true
  ↔ key ∈ def_label <$> definitions ∨ key ∈ objectPrototypeKeys.
Proof.
  unfold getProperty. rewrite <- buildIdByLabelMap_is_Some.
  destruct (buildIdByLabelMap definitions !! key) as [i|] eqn:E; simpl.
  - split; [intros _; left; eauto | done].
  - case_bool_decide; simpl.
    + split; [auto | done].
    + split; [done | intros [[? ?]|?]; [discriminate | contradiction]].
Qed.
End LabelMaps.

Lemma normalizeStep_Returned normalized rawItem :
  (∃ normalized', normalizeStep normalized rawItem = Returned normalized')
  ↔ (knownDomainLabel (raw_domain rawItem)
       ∨ raw_domain rawItem ∈ objectPrototypeKeys)
    ∧ (knownFacetLabel (raw_facet rawItem)
       ∨ raw_facet rawItem ∈ objectPrototypeKeys).
Proof.
  unfold normalizeStep, knownDomainLabel, knownFacetLabel.
  rewrite <- !truthy_getProperty. fold domainIdByLabel facetIdByLabel.
  destruct (truthy (getProperty domainIdByLabel _)); simpl.
  - destruct (truthy (getProperty facetIdByLabel _)); simpl.
    + split; [done | eauto].
    + split; [intros [? ?]; discriminate | intros [_ ?]; discriminate].
  - split; [intros [? ?]; discriminate | intros [? _]; discriminate].
Qed.

Lemma normalizeLoop_Returned rawList normalized :
  (∃ items, normalizeLoop normalized rawList = Returned items)
  ↔ Forall (fun rawItem =>
              (knownDomainLabel (raw_domain rawItem)
                 ∨ raw_domain rawItem ∈ objectPrototypeKeys)
              ∧ (knownFacetLabel (raw_facet rawItem)
                   ∨ raw_facet rawItem ∈ objectPrototypeKeys)) rawList.
Proof.
  revert normalized.
  induction rawList as [|rawItem rest IH]; intros normalized; simpl.
  - split; [constructor | eauto].
  - rewrite Forall_cons, <- (normalizeStep_Returned normalized rawItem).
    destruct (normalizeStep normalized rawItem) as [normalized'|message].
    + rewrite IH. split; [eauto | tauto].
    + split; [intros [? ?]; discriminate | intros [[? ?] _]; discriminate].
Qed.

Lemma Outcome_Threw_iff {A : Type} (o : Outcome A) :
  (∃ message, o = Threw message) ↔ ¬ ∃ a, o = Returned a.
Proof.
  destruct o as [a|message].
  - split; [intros [? ?]; discriminate | intros H; destruct H; eauto].
  - split; [intros _ [? ?]; discriminate | eauto].
Qed.

(** For raw lists none of whose labels is the name of a member of
    [Object.prototype], normalisation throws exactly when some raw item
    carries a label outside the definition lists. *)
Lemma normalizeItems_Threw_iff (rawList : list RawItem) :
  Forall (fun rawItem => (raw_domain rawItem ∉ objectPrototypeKeys)
                         ∧ (raw_facet rawItem ∉ objectPrototypeKeys)) rawList →
  (∃ message, normalizeItems rawList = Threw message)
  ↔ Exists (fun rawItem => ¬ knownLabels rawItem) rawList.
Proof.
  intros Hplain. unfold normalizeItems.
  rewrite Outcome_Threw_iff, normalizeLoop_Returned.
  assert (Forall (fun rawItem =>
              (knownDomainLabel (raw_domain rawItem)
                 ∨ raw_domain rawItem ∈ objectPrototypeKeys)
              ∧ (knownFacetLabel (raw_facet rawItem)
                   ∨ raw_facet rawItem ∈ objectPrototypeKeys)) rawList
          ↔ Forall knownLabels rawList) as ->.
  { rewrite !Forall_forall. unfold knownLabels.
    rewrite Forall_forall in Hplain.
    split; intros H rawItem Hin; specialize (H rawItem Hin);
      specialize (Hplain rawItem Hin); tauto. }
  split.
  - intros H. apply not_Forall_Exists in H; [exact H | apply _].
  - intros H. by apply Exists_not_Forall.
Qed.

(** Every object normalisation returns on a list of known labels has the
    declared [Item] shape. *)
Lemma normalizeStep_known normalized rawItem :
  knownLabels rawItem →
  ∃ n, normalizeStep normalized rawItem = Returned (normalized ++ [n])
       ∧ is_Some (asItem n)
       ∧ n_number n = raw_number rawItem.
Proof.
  intros [Hd Hf]. unfold knownDomainLabel, knownFacetLabel in *.
  apply buildIdByLabelMap_is_Some in Hd as [d Hd].
  apply buildIdByLabelMap_is_Some in Hf as [f Hf].
  unfold normalizeStep, getProperty.
  fold domainIdByLabel facetIdByLabel in Hd, Hf |- *.
  rewrite Hd, Hf. simpl. eexists. split; [reflexivity|].
  unfold asItem. simpl. eauto.
Qed.

Lemma normalizeLoop_known rawList normalized :
  Forall knownLabels rawList →
  ∃ pushed, normalizeLoop normalized rawList = Returned (normalized ++ pushed)
            ∧ Forall (fun n => is_Some (asItem n)) pushed
            ∧ n_number <$> pushed = raw_number <$> rawList.
Proof.
  intros Hknown. revert normalized.
  induction Hknown as [|rawItem rest Hitem _ IH]; intros normalized.
  - exists []. by rewrite app_nil_r.
  - destruct (normalizeStep_known normalized rawItem Hitem)
      as (n & Hstep & Htyped & Hnumber).
    destruct (IH (normalized ++ [n])) as (pushed & Hloop & Hall & Hnumbers).
    exists (n :: pushed). cbn [normalizeLoop].
    rewrite Hstep, Hloop, <- app_assoc.
    split; [done|]. split; [by constructor|].
    by rewrite !fmap_cons, Hnumbers, Hnumber.
Qed.

(** On a raw list of known labels normalisation returns, in input order
    and without renumbering, items of the declared [Item] shape. *)
Lemma normalizeItems_known (rawList : list RawItem) :
  Forall knownLabels rawList →
  ∃ normalized, normalizeItems rawList = Returned normalized
                ∧ Forall (fun n => is_Some (asItem n)) normalized
                ∧ n_number <$> normalized = raw_number <$> rawList.
Proof. intros Hknown. exact (normalizeLoop_known rawList [] Hknown). Qed.

(** C4: at a raw item whose domain label is [constructor], a label outside
    the definition list, normalisation does not throw: the lookup finds the
    inherited member, the guard lets it pass, and a catalog is returned
    whose item has no domain id. *)
Theorem normalizeItems_inherited_label :
  ¬ knownLabels inheritedLabelItem
  ∧ normalizeItems [inheritedLabelItem]
    = Returned [ {| n_number := 1; n_text := "A";
                    n_domainId := Inherited "constructor";
                    n_facetId := OwnId sociability;
                    n_reverse := false |} ]
  ∧ (∀ message, normalizeItems [inheritedLabelItem] ≠ Threw message).
Proof.
  split; [|split].
  - apply (bool_decide_eq_false_1 (knownLabels inheritedLabelItem)).
    by vm_compute.
  - by vm_compute.
  - intros message. by vm_compute.
Qed.

(** ** Accumulators *)

Lemma createZeroDomainMap_lookup (d : DomainId) :
  createZeroDomainMap !! d = Some 0.
Proof. destruct d; by vm_compute. Qed.

Lemma createZeroFacetMap_lookup (f : FacetId) :
  createZeroFacetMap !! f = Some 0.
Proof. destruct f; by vm_compute. Qed.

Lemma sumZ_cons (x : Z) (l : list Z) : sumZ (x :: l) = x + sumZ l.
Proof. reflexivity. Qed.

Lemma sumZ_ones {A : Type} (l : list A) :
  sumZ ((fun _ => 1) <$> l) = Z.of_nat (length l).
Proof.
  induction l as [|x l IH]; [done|].
  rewrite fmap_cons, length_cons, Nat2Z.inj_succ, sumZ_cons. lia.
Qed.

Lemma foldl_push {A B : Type} (f : A → B) (l : list A) (pushed : list B) :
  foldl (fun pushed x => pushed ++ [f x]) pushed l = pushed ++ (f <$> l).
Proof.
  revert pushed. induction l as [|x l IH]; intros pushed; simpl.
  - by rewrite app_nil_r.
  - by rewrite IH, <- app_assoc.
Qed.

Section Accumulators.
Context {Id : Type} `{Countable Id}.
Variables (key : Item → Id) (weight : Item → Z).

Lemma addAt_zero (map : gmap Id Z) (k : Id) : addAt map k 0 = map.
Proof.
  apply map_eq. intros j. unfold addAt. rewrite lookup_alter.
  destruct (decide (k = j)) as [->|]; [|done].
  destruct (map !! j) as [x|]; simpl; [f_equal; lia | done].
Qed.

(** Folding [+=] over a list adds, under each key, the weights of the
    elements filed under that key. *)
Lemma foldl_addAt_lookup (l : list Item) (map : gmap Id Z) (k : Id) :
  foldl (fun map item => addAt map (key item) (weight item)) map l !! k
  = (fun current =>
       current + sumZ (weight <$> filter (fun item => key item = k) l))
    <$> map !! k.
Proof.
  revert map. induction l as [|item l IH]; intros map; simpl.
  - destruct (map !! k); simpl; [f_equal; lia | done].
  - rewrite IH, filter_cons. unfold addAt at 1. rewrite lookup_alter.
    destruct (decide (key item = k)) as [Hk|Hk]; cbv beta iota; [|done].
    rewrite fmap_cons, sumZ_cons, <- Hk.
    destruct (map !! key item) as [x|] eqn:E; simpl; [|done].
    f_equal. lia.
Qed.
End Accumulators.

Lemma foldl_accumulate_domains responses (l : list Item) (totals : Totals.t) :
  Totals.domains (foldl (accumulate responses) totals l)
  = foldl (fun map item => addAt map (domainId item) (contribution responses item))
          (Totals.domains totals) l.
Proof.
  revert totals. induction l as [|item l IH]; intros totals; simpl; [done|].
  rewrite IH. f_equal. unfold accumulate, contribution.
  destruct (responses !! number item) as [selected|]; [|by rewrite addAt_zero].
  destruct (selected =? 0); [by rewrite addAt_zero | done].
Qed.

Lemma foldl_accumulate_facets responses (l : list Item) (totals : Totals.t) :
  Totals.facets (foldl (accumulate responses) totals l)
  = foldl (fun map item => addAt map (facetId item) (contribution responses item))
          (Totals.facets totals) l.
Proof.
  revert totals. induction l as [|item l IH]; intros totals; simpl; [done|].
  rewrite IH. f_equal. unfold accumulate, contribution.
  destruct (responses !! number item) as [selected|]; [|by rewrite addAt_zero].
  destruct (selected =? 0); [by rewrite addAt_zero | done].
Qed.

Lemma foldl_countItem_domains (l : list Item) (stats : ItemStats.t) :
  ItemStats.domainCounts (foldl countItem stats l)
  = foldl (fun map item => addAt map (domainId item) 1)
          (ItemStats.domainCounts stats) l.
Proof. revert stats. induction l as [|item l IH]; intros stats; simpl; [done|]. by rewrite IH. Qed.

Lemma foldl_countItem_facets (l : list Item) (stats : ItemStats.t) :
  ItemStats.facetCounts (foldl countItem stats l)
  = foldl (fun map item => addAt map (facetId item) 1)
          (ItemStats.facetCounts stats) l.
Proof. revert stats. induction l as [|item l IH]; intros stats; simpl; [done|]. by rewrite IH. Qed.

Lemma pushScores_fmap {Id : Type} `{Countable Id}
    (definitions : list (CategoryDef Id)) (sums counts : gmap Id Z) :
  pushScores definitions sums counts
  = (fun definition =>
       {| id := def_id definition;
          label := def_label definition;
          value := calculateAverage (readAt sums (def_id definition))
                                    (readAt counts (def_id definition)) |})
    <$> definitions.
Proof. unfold pushScores. by rewrite foldl_push. Qed.

(** ** The score summary *)

Section Scoring.
Variable items : list Item.

Lemma domainCounts_spec (d : DomainId) :
  readAt (domainCounts items) d = Z.of_nat (length (itemsOfDomain items d)).
Proof.
  unfold readAt, domainCounts, createItemStats.
  rewrite foldl_countItem_domains, foldl_addAt_lookup. simpl.
  rewrite createZeroDomainMap_lookup. simpl.
  by rewrite sumZ_ones.
Qed.

Lemma facetCounts_spec (f : FacetId) :
  readAt (facetCounts items) f = Z.of_nat (length (itemsOfFacet items f)).
Proof.
  unfold readAt, facetCounts, createItemStats.
  rewrite foldl_countItem_facets, foldl_addAt_lookup. simpl.
  rewrite createZeroFacetMap_lookup. simpl.
  by rewrite sumZ_ones.
Qed.

Lemma domainTotals_spec (responses : gmap Z Z) (d : DomainId) :
  readAt (Totals.domains
            (foldl (accumulate responses) createInitialTotals items)) d
  = sumZ (contribution responses <$> itemsOfDomain items d).
Proof.
  unfold readAt.
  rewrite foldl_accumulate_domains, foldl_addAt_lookup. simpl.
  by rewrite createZeroDomainMap_lookup.
Qed.

Lemma facetTotals_spec (responses : gmap Z Z) (f : FacetId) :
  readAt (Totals.facets
            (foldl (accumulate responses) createInitialTotals items)) f
  = sumZ (contribution responses <$> itemsOfFacet items f).
Proof.
  unfold readAt.
  rewrite foldl_accumulate_facets, foldl_addAt_lookup. simpl.
  by rewrite createZeroFacetMap_lookup.
Qed.

(** The memo yields [null] exactly when the count guard fails, and
    otherwise one entry per definition, in definition order. *)
Lemma result_guard_failed (responses : gmap Z Z) :
  allAnswered items responses = false → result items responses = None.
Proof. intros Hguard. unfold result. by rewrite Hguard. Qed.

Lemma result_guard_passed (responses : gmap Z Z) :
  allAnswered items responses = true →
  result items responses
  = Some {| ScoreSummary.domains :=
              domainEntry items responses <$> domainDefinitions;
            ScoreSummary.facets :=
              facetEntry items responses <$> facetDefinitions |}.
Proof.
  intros Hguard. unfold result. rewrite Hguard. cbn [negb]. cbv zeta.
  rewrite !pushScores_fmap. do 2 f_equal.
  - apply list_fmap_ext. intros _ definition _. unfold domainEntry.
    by rewrite domainTotals_spec, domainCounts_spec.
  - apply list_fmap_ext. intros _ definition _. unfold facetEntry.
    by rewrite facetTotals_spec, facetCounts_spec.
Qed.

Lemma result_Some_inv (responses : gmap Z Z) (summary : ScoreSummary.t) :
  result items responses = Some summary →
  allAnswered items responses = true
  ∧ ScoreSummary.domains summary
    = domainEntry items responses <$> domainDefinitions
  ∧ ScoreSummary.facets summary
    = facetEntry items responses <$> facetDefinitions.
Proof.
  intros Hresult.
  destruct (allAnswered items responses) eqn:Hguard.
  - rewrite result_guard_passed in Hresult by done.
    injection Hresult as <-. done.
  - rewrite result_guard_failed in Hresult by done. discriminate.
Qed.

Lemma complete_allAnswered (responses : gmap Z Z) :
  NoDup (number <$> items) → complete items responses →
  allAnswered items responses = true.
Proof.
  intros Hnodup [Hdom _]. unfold allAnswered, answeredCount, totalItems.
  apply bool_decide_eq_true.
  rewrite <- (size_dom (D := gset Z)), Hdom, size_list_to_set by done.
  apply length_fmap.
Qed.

Lemma complete_answersAll (responses : gmap Z Z) :
  complete items responses → answersAll items responses.
Proof.
  intros [Hdom Hratings] item Hin.
  assert (number item ∈ dom responses) as Hkey.
  { rewrite Hdom, elem_of_list_to_set. by apply list_elem_of_fmap_2. }
  apply elem_of_dom in Hkey as [rating Hrating].
  exists rating. split; [done|]. by apply (Hratings (number item)).
Qed.

Lemma answersAll_contribution (responses : gmap Z Z) (item : Item) :
  answersAll items responses → item ∈ items →
  contribution responses item = effectiveScore responses item
  ∧ isRating (effectiveScore responses item).
Proof.
  intros Hall Hin. destruct (Hall item Hin) as (rating & Hrating & Hrange).
  unfold contribution, effectiveScore, ratingOf, reverseScore, REVERSE_BASE,
    isRating in *.
  rewrite Hrating. simpl.
  destruct (Z.eqb_spec rating 0); [lia|].
  destruct (reverse item); split; lia.
Qed.
End Scoring.

(** ** Averages *)

Lemma sumZ_ratings (l : list Z) :
  Forall isRating l →
  Z.of_nat (length l) <= sumZ l <= 5 * Z.of_nat (length l).
Proof.
  unfold isRating. induction 1 as [|x l Hx _ IH].
  - simpl. unfold sumZ. simpl. lia.
  - rewrite length_cons, Nat2Z.inj_succ, sumZ_cons. lia.
Qed.

Lemma mean_ratings (l : list Z) :
  Forall isRating l → l ≠ [] → (1 <= mean l <= 5)%Q.
Proof.
  intros Hl Hne. pose proof (sumZ_ratings l Hl) as [Hlo Hhi].
  assert (0 < Z.of_nat (length l)) as Hpos by (destruct l; [done | simpl; lia]).
  unfold mean. split.
  - apply Qle_shift_div_l.
    + by rewrite <- (Zlt_Qlt 0).
    + rewrite Qmult_1_l. by rewrite <- Zle_Qle.
  - apply Qle_shift_div_r.
    + by rewrite <- (Zlt_Qlt 0).
    + change 5%Q with (inject_Z 5). rewrite <- inject_Z_mult.
      by rewrite <- Zle_Qle.
Qed.


Lemma calculateAverage_mean (l : list Z) :
  ∃ q, calculateAverage (sumZ l) (Z.of_nat (length l)) = Finite q
       ∧ (q == mean l)%Q.
Proof.
  unfold calculateAverage, divide.
  destruct (Z.eqb_spec (Z.of_nat (length l)) 0) as [Hzero|Hpos].
  - exists 0%Q. split; [done|].
    destruct l; [reflexivity | simpl in Hzero; lia].
  - eexists. split; [reflexivity|]. reflexivity.
Qed.

Lemma calculateAverage_lt (sum sum' count : Z) :
  0 < count → sum < sum' →
  ∃ q q', calculateAverage sum count = Finite q
          ∧ calculateAverage sum' count = Finite q'
          ∧ (q < q')%Q.
Proof.
  intros Hcount Hlt. unfold calculateAverage, divide.
  destruct (Z.eqb_spec count 0); [lia|].
  do 2 eexists. split; [reflexivity|]. split; [reflexivity|].
  apply Qmult_lt_compat_r.
  - apply Qinv_lt_0_compat. by rewrite <- (Zlt_Qlt 0).
  - by rewrite <- Zlt_Qlt.
Qed.

Lemma sumZ_fmap_le {A : Type} (f g : A → Z) (l : list A) :
  (∀ y, y ∈ l → f y <= g y) → sumZ (f <$> l) <= sumZ (g <$> l).
Proof.
  induction l as [|y l IH]; intros Hle; [done|].
  rewrite !fmap_cons, !sumZ_cons.
  pose proof (Hle y (list_elem_of_here _ _)).
  assert (sumZ (f <$> l) <= sumZ (g <$> l))
    by (apply IH; intros z Hz; apply Hle; by apply list_elem_of_further).
  lia.
Qed.

Lemma sumZ_fmap_lt {A : Type} (f g : A → Z) (l : list A) (x : A) :
  (∀ y, y ∈ l → f y <= g y) → x ∈ l → f x < g x →
  sumZ (f <$> l) < sumZ (g <$> l).
Proof.
  induction l as [|y l IH]; intros Hle Hin Hlt.
  - by apply elem_of_nil in Hin.
  - rewrite !fmap_cons, !sumZ_cons.
    assert (sumZ (f <$> l) <= sumZ (g <$> l))
      by (apply sumZ_fmap_le; intros z Hz; apply Hle; by apply list_elem_of_further).
    pose proof (Hle y (list_elem_of_here _ _)).
    apply elem_of_cons in Hin as [<-|Hin]; [lia|].
    assert (sumZ (f <$> l) < sumZ (g <$> l)); [|lia].
    apply IH; [|done..]. intros z Hz. apply Hle. by apply list_elem_of_further.
Qed.

(** C2: on ratings 1..5 the reverse transform is [6 - r], stays within
    1..5, and applying it twice gives the rating back. *)
Theorem reverseScore_involution (r : Z) :
  isRating r →
  reverseScore r = 6 - r
  ∧ isRating (reverseScore r)
  ∧ reverseScore (reverseScore r) = r.
Proof.
  unfold isRating, reverseScore, REVERSE_BASE. intros Hr. lia.
Qed.

Lemma reverseScore_involution_witness :
  isRating 2
  ∧ reverseScore 2 = 6 - 2
  ∧ isRating (reverseScore 2)
  ∧ reverseScore (reverseScore 2) = 2.
Proof.
  assert (isRating 2) as Hr by (unfold isRating; lia).
  split; [exact Hr | exact (reverseScore_involution 2 Hr)].
Defined.

(** ** Claims about the score summary *)

Lemma every_domain_defined (d : DomainId) :
  ∃ definition, definition ∈ domainDefinitions ∧ def_id definition = d.
Proof.
  destruct d; eexists (mkDef _ _); (split; [|reflexivity]);
    unfold domainDefinitions; repeat first [apply list_elem_of_here | apply list_elem_of_further].
Qed.

Lemma every_facet_defined (f : FacetId) :
  ∃ definition, definition ∈ facetDefinitions ∧ def_id definition = f.
Proof.
  destruct f; eexists (mkDef _ _); (split; [|reflexivity]);
    unfold facetDefinitions; repeat first [apply list_elem_of_here | apply list_elem_of_further].
Qed.

Section ScoreSummaryClaims.
Variable items : list Item.

Lemma domainEntry_mean (responses : gmap Z Z)
    (definition : CategoryDef DomainId) :
  answersAll items responses →
  ∃ q, value (domainEntry items responses definition) = Finite q
       ∧ (q == mean (effectiveScore responses
                       <$> itemsOfDomain items (def_id definition)))%Q
       ∧ (itemsOfDomain items (def_id definition) ≠ [] → (1 <= q <= 5)%Q).
Proof.
  intros Hall. unfold domainEntry. simpl.
  set (category := itemsOfDomain items (def_id definition)).
  assert (∀ item, item ∈ category → item ∈ items) as Hsub.
  { intros item Hin. by apply list_elem_of_filter in Hin as [_ ?]. }
  assert (contribution responses <$> category
          = effectiveScore responses <$> category) as ->.
  { apply list_fmap_ext. intros i item Hitem.
    apply (answersAll_contribution items); [done|].
    apply Hsub. by eapply list_elem_of_lookup_2. }
  rewrite <- (length_fmap (effectiveScore responses) category).
  destruct (calculateAverage_mean (effectiveScore responses <$> category))
    as (q & Hq & Hmean).
  exists q. split; [done|]. split; [done|].
  intros Hne. rewrite Hmean. apply mean_ratings.
  - apply Forall_fmap, Forall_forall. intros item Hitem.
    by apply (answersAll_contribution items); [|apply Hsub].
  - intros Hnil. by apply fmap_nil_inv in Hnil.
Qed.

Lemma facetEntry_mean (responses : gmap Z Z)
    (definition : CategoryDef FacetId) :
  answersAll items responses →
  ∃ q, value (facetEntry items responses definition) = Finite q
       ∧ (q == mean (effectiveScore responses
                       <$> itemsOfFacet items (def_id definition)))%Q
       ∧ (itemsOfFacet items (def_id definition) ≠ [] → (1 <= q <= 5)%Q).
Proof.
  intros Hall. unfold facetEntry. simpl.
  set (category := itemsOfFacet items (def_id definition)).
  assert (∀ item, item ∈ category → item ∈ items) as Hsub.
  { intros item Hin. by apply list_elem_of_filter in Hin as [_ ?]. }
  assert (contribution responses <$> category
          = effectiveScore responses <$> category) as ->.
  { apply list_fmap_ext. intros i item Hitem.
    apply (answersAll_contribution items); [done|].
    apply Hsub. by eapply list_elem_of_lookup_2. }
  rewrite <- (length_fmap (effectiveScore responses) category).
  destruct (calculateAverage_mean (effectiveScore responses <$> category))
    as (q & Hq & Hmean).
  exists q. split; [done|]. split; [done|].
  intros Hne. rewrite Hmean. apply mean_ratings.
  - apply Forall_fmap, Forall_forall. intros item Hitem.
    by apply (answersAll_contribution items); [|apply Hsub].
  - intros Hnil. by apply fmap_nil_inv in Hnil.
Qed.

(** C1: for a complete response set over a catalog with unique item
    numbers, the summary is produced, holds an entry for every domain and
    every facet, and each entry's value is the arithmetic mean of the
    effective scores of the category's items; when the category has an
    item, that mean lies in [1,5]. *)
Theorem summary_is_mean_of_effective_scores (responses : gmap Z Z) :
  NoDup (number <$> items) →
  complete items responses →
  ∃ summary,
    result items responses = Some summary
    ∧ (∀ d, ∃ entry, entry ∈ ScoreSummary.domains summary ∧ id entry = d)
    ∧ (∀ f, ∃ entry, entry ∈ ScoreSummary.facets summary ∧ id entry = f)
    ∧ (∀ entry, entry ∈ ScoreSummary.domains summary →
         ∃ q, value entry = Finite q
              ∧ (q == mean (effectiveScore responses
                              <$> itemsOfDomain items (id entry)))%Q
              ∧ (itemsOfDomain items (id entry) ≠ [] → (1 <= q <= 5)%Q))
    ∧ (∀ entry, entry ∈ ScoreSummary.facets summary →
         ∃ q, value entry = Finite q
              ∧ (q == mean (effectiveScore responses
                              <$> itemsOfFacet items (id entry)))%Q
              ∧ (itemsOfFacet items (id entry) ≠ [] → (1 <= q <= 5)%Q)).
Proof.
  intros Hnodup Hcomplete.
  pose proof (complete_answersAll items responses Hcomplete) as Hall.
  eexists. split.
  { apply result_guard_passed. by apply complete_allAnswered. }
  cbn [ScoreSummary.domains ScoreSummary.facets].
  split; [|split; [|split]].
  - intros d. destruct (every_domain_defined d) as (definition & Hin & Hid).
    exists (domainEntry items responses definition).
    split; [by apply list_elem_of_fmap_2 | done].
  - intros f. destruct (every_facet_defined f) as (definition & Hin & Hid).
    exists (facetEntry items responses definition).
    split; [by apply list_elem_of_fmap_2 | done].
  - intros entry Hentry.
    apply list_elem_of_fmap in Hentry as (definition & -> & _).
    by apply domainEntry_mean.
  - intros entry Hentry.
    apply list_elem_of_fmap in Hentry as (definition & -> & _).
    by apply facetEntry_mean.
Qed.
End ScoreSummaryClaims.

Lemma summary_is_mean_of_effective_scores_witness :
  NoDup (number <$> sampleItems)
  ∧ complete sampleItems sampleResponses
  ∧ ∃ summary,
      result sampleItems sampleResponses = Some summary
      ∧ (∀ d, ∃ entry, entry ∈ ScoreSummary.domains summary ∧ id entry = d)
      ∧ (∀ f, ∃ entry, entry ∈ ScoreSummary.facets summary ∧ id entry = f)
      ∧ (∀ entry, entry ∈ ScoreSummary.domains summary →
           ∃ q, value entry = Finite q
                ∧ (q == mean (effectiveScore sampleResponses
                                <$> itemsOfDomain sampleItems (id entry)))%Q
                ∧ (itemsOfDomain sampleItems (id entry) ≠ []
                   → (1 <= q <= 5)%Q))
      ∧ (∀ entry, entry ∈ ScoreSummary.facets summary →
           ∃ q, value entry = Finite q
                ∧ (q == mean (effectiveScore sampleResponses
                                <$> itemsOfFacet sampleItems (id entry)))%Q
                ∧ (itemsOfFacet sampleItems (id entry) ≠ []
                   → (1 <= q <= 5)%Q)).
Proof.
  assert (NoDup (number <$> sampleItems)) as Hnodup by by_evaluation.
  assert (complete sampleItems sampleResponses) as Hcomplete by by_evaluation.
  split; [exact Hnodup|]. split; [exact Hcomplete|].
  exact (summary_is_mean_of_effective_scores sampleItems sampleResponses
           Hnodup Hcomplete).
Defined.

(** The end-to-end scenario: A = 4 and B = 2 (reversed to 4) give the
    extraversion domain and the sociability facet the average 8/2 = 4. *)
Example sample_scenario :
  result sampleItems sampleResponses = Some sampleSummary
  ∧ value <$> head (ScoreSummary.domains sampleSummary) = Some (Finite (8 # 2))
  ∧ value <$> head (ScoreSummary.facets sampleSummary) = Some (Finite (8 # 2)).
Proof. by vm_compute. Qed.



(** C10: for a complete response set over a catalog with unique item
    numbers, the summary lists the five domains and the fifteen facets,
    each once, in the order of the definition lists and under the labels
    given there; the responses have no influence on that order. *)
Theorem summary_follows_definition_order (items : list Item)
    (responses : gmap Z Z) :
  NoDup (number <$> items) →
  complete items responses →
  ∃ summary,
    result items responses = Some summary
    ∧ id <$> ScoreSummary.domains summary
      = [ extraversion; agreeableness; conscientiousness;
          negativeEmotionality; openness ]
    ∧ id <$> ScoreSummary.facets summary
      = [ sociability; assertiveness; energyLevel;
          compassion; respectfulness; trust;
          organization; productivity; responsibility;
          anxiety; depression; emotionalVolatility;
          intellectualCuriosity; aestheticSensitivity; creativeImagination ]
    ∧ label <$> ScoreSummary.domains summary = def_label <$> domainDefinitions
    ∧ label <$> ScoreSummary.facets summary = def_label <$> facetDefinitions
    ∧ length (ScoreSummary.domains summary) = 5%nat
    ∧ length (ScoreSummary.facets summary) = 15%nat.
Proof.
  intros Hnodup Hcomplete. eexists. split.
  { apply result_guard_passed. by apply complete_allAnswered. }
  repeat split.
Qed.

Lemma summary_follows_definition_order_witness :
  NoDup (number <$> sampleItems)
  ∧ complete sampleItems fullResponses
  ∧ ∃ summary,
      result sampleItems fullResponses = Some summary
      ∧ id <$> ScoreSummary.domains summary
        = [ extraversion; agreeableness; conscientiousness;
            negativeEmotionality; openness ]
      ∧ id <$> ScoreSummary.facets summary
        = [ sociability; assertiveness; energyLevel;
            compassion; respectfulness; trust;
            organization; productivity; responsibility;
            anxiety; depression; emotionalVolatility;
            intellectualCuriosity; aestheticSensitivity; creativeImagination ]
      ∧ label <$> ScoreSummary.domains summary = def_label <$> domainDefinitions
      ∧ label <$> ScoreSummary.facets summary = def_label <$> facetDefinitions
      ∧ length (ScoreSummary.domains summary) = 5%nat
      ∧ length (ScoreSummary.facets summary) = 15%nat.
Proof.
  assert (NoDup (number <$> sampleItems)) as Hnodup by by_evaluation.
  assert (complete sampleItems fullResponses) as Hcomplete by by_evaluation.
  split; [exact Hnodup|]. split; [exact Hcomplete|].
  exact (summary_follows_definition_order sampleItems fullResponses
           Hnodup Hcomplete).
Defined.

(** Whatever the responses, a summary the memo produces has that shape. *)
Lemma result_definition_order (items : list Item) (responses : gmap Z Z)
    (summary : ScoreSummary.t) :
  result items responses = Some summary →
  id <$> ScoreSummary.domains summary = def_id <$> domainDefinitions
  ∧ id <$> ScoreSummary.facets summary = def_id <$> facetDefinitions.
Proof.
  intros Hresult. apply result_Some_inv in Hresult as (_ & -> & ->).
  by split.
Qed.

(** ** Incomplete input *)

(** C8, as stated, fails: with a response missing for item B the memo
    yields [null]; no item is passed over and no average is produced. *)
Lemma incomplete_input_is_not_scored :
  (∃ item, item ∈ sampleItems ∧ partialResponses !! number item = None)
  ∧ result sampleItems partialResponses = None
  ∧ ¬ scoredWithSkips sampleItems partialResponses.
Proof.
  split; [|split].
  - exists (mkItem 2 "B" extraversion sociability true). split.
    + unfold sampleItems. apply list_elem_of_further, list_elem_of_here.
    + by vm_compute.
  - by vm_compute.
  - unfold scoredWithSkips.
    assert (result sampleItems partialResponses = None) as -> by by vm_compute.
    discriminate.
Qed.

Lemma contribution_keepsRecorded (items : list Item)
    (responses responses' : gmap Z Z) (other : Item) :
  keepsRecorded items responses responses' →
  answersAll items responses' →
  other ∈ items →
  contribution responses other <= contribution responses' other.
Proof.
  intros Hkeeps Hall Hin.
  unfold keepsRecorded in Hkeeps. rewrite Forall_forall in Hkeeps.
  destruct (answersAll_contribution items responses' other Hall Hin)
    as [Heq Hrange].
  unfold isRating in Hrange.
  destruct (Hkeeps other Hin) as [Hnone|Hsame].
  - unfold contribution at 1. rewrite Hnone. lia.
  - unfold contribution. rewrite Hsame. lia.
Qed.

(** C8, amended: the memo's only completeness check is the count guard
    [allAnswered], on whose failure it yields [null].  Past the guard an
    item with no recorded response is passed over while its categories
    keep their full item counts as denominators, so the averages of its
    domain and facet come out strictly below those of any response set
    that keeps the recorded ratings and rates every item. *)
Theorem count_guard_then_silent_skip (items : list Item)
    (responses responses' : gmap Z Z) (item : Item) :
  item ∈ items →
  responses !! number item = None →
  keepsRecorded items responses responses' →
  answersAll items responses' →
  (allAnswered items responses = false → result items responses = None)
  ∧ (allAnswered items responses = true → scoredWithSkips items responses)
  ∧ contribution responses item = 0
  ∧ (∀ definition, def_id definition = domainId item →
       ∃ q q', value (domainEntry items responses definition) = Finite q
               ∧ value (domainEntry items responses' definition) = Finite q'
               ∧ (q < q')%Q)
  ∧ (∀ definition, def_id definition = facetId item →
       ∃ q q', value (facetEntry items responses definition) = Finite q
               ∧ value (facetEntry items responses' definition) = Finite q'
               ∧ (q < q')%Q).
Proof.
  intros Hin Hnone Hkeeps Hall.
  assert (contribution responses item = 0) as Hzero
    by (unfold contribution; by rewrite Hnone).
  assert (contribution responses item < contribution responses' item) as Hlt.
  { destruct (answersAll_contribution items responses' item Hall Hin)
      as [-> Hrange]. unfold isRating in Hrange. lia. }
  split; [apply result_guard_failed|].
  split; [apply result_guard_passed|].
  split; [exact Hzero|].
  split.
  - intros definition Hid. unfold domainEntry. simpl. rewrite Hid.
    assert (item ∈ itemsOfDomain items (domainId item)) as Hcategory
      by (by apply list_elem_of_filter).
    apply calculateAverage_lt.
    + destruct (itemsOfDomain items (domainId item));
        [by apply elem_of_nil in Hcategory | simpl; lia].
    + apply (sumZ_fmap_lt _ _ _ item); [|done..].
      intros other Hother. apply list_elem_of_filter in Hother as [_ Hother].
      by apply (contribution_keepsRecorded items).
  - intros definition Hid. unfold facetEntry. simpl. rewrite Hid.
    assert (item ∈ itemsOfFacet items (facetId item)) as Hcategory
      by (by apply list_elem_of_filter).
    apply calculateAverage_lt.
    + destruct (itemsOfFacet items (facetId item));
        [by apply elem_of_nil in Hcategory | simpl; lia].
    + apply (sumZ_fmap_lt _ _ _ item); [|done..].
      intros other Hother. apply list_elem_of_filter in Hother as [_ Hother].
      by apply (contribution_keepsRecorded items).
Qed.

Lemma count_guard_then_silent_skip_witness :
  allAnswered sampleItems foreignResponses = true
  ∧ scoredWithSkips sampleItems foreignResponses
  ∧ ∃ q q',
      value (domainEntry sampleItems foreignResponses
               (mkDef extraversion "外向性")) = Finite q
      ∧ value (domainEntry sampleItems sampleResponses
                 (mkDef extraversion "外向性")) = Finite q'
      ∧ (q < q')%Q.
Proof.
  assert (mkItem 2 "B" extraversion sociability true ∈ sampleItems) as Hin
    by by_evaluation.
  assert (foreignResponses !! 2 = None) as Hnone by (vm_compute; reflexivity).
  assert (keepsRecorded sampleItems foreignResponses sampleResponses) as Hkeeps
    by by_evaluation.
  assert (answersAll sampleItems sampleResponses) as Hall.
  { apply complete_answersAll. by_evaluation. }
  assert (allAnswered sampleItems foreignResponses = true) as Hguard
    by (vm_compute; reflexivity).
  destruct (count_guard_then_silent_skip sampleItems foreignResponses
              sampleResponses _ Hin Hnone Hkeeps Hall)
    as (_ & Hskips & _ & Hdomain & _).
  split; [exact Hguard|]. split; [exact (Hskips Hguard)|].
  exact (Hdomain (mkDef extraversion "外向性") eq_refl).
Defined.

(** ** The answering flow *)

Lemma ratingValues_isRating (rating : Z) :
  rating ∈ ratingValues ↔ isRating rating.
Proof.
  unfold isRating.
  change ratingValues with [1; 2; 3; 4; 5].
  rewrite !elem_of_cons, elem_of_nil. lia.
Qed.

Section Flow.
Variable items : list Item.

Lemma handleNext_responses (st : State) :
  responses (handleNext items st) = responses st.
Proof.
  unfold handleNext.
  destruct (currentItem items st) as [item|]; [|done].
  destruct (responses st !! number item) as [selected|]; [|done].
  destruct (selected =? 0); [done|].
  by destruct (totalItems items <=? S (currentIndex st))%nat.
Qed.

Lemma handlePrevious_responses (st : State) :
  responses (handlePrevious st) = responses st.
Proof.
  unfold handlePrevious.
  destruct (currentIndex st =? 0)%nat; [done|].
  by destruct (Z.of_nat (currentIndex st) - 1 <? 0).
Qed.

Lemma handlePrevious_index (st : State) :
  currentIndex (handlePrevious st) = Nat.pred (currentIndex st).
Proof.
  unfold handlePrevious.
  destruct (Nat.eqb_spec (currentIndex st) 0) as [->|Hpos]; [done|].
  destruct (Z.ltb_spec (Z.of_nat (currentIndex st) - 1) 0); [lia|].
  simpl. lia.
Qed.

Lemma run_cons (st : State) (action : Action) (actions : list Action) :
  run items st (action :: actions) = run items (handle items st action) actions.
Proof. reflexivity. Qed.

Lemma run_navigation_responses (navigation : list Action) (st : State) :
  Forall isNavigation navigation →
  responses (run items st navigation) = responses st.
Proof.
  intros Hnav. revert st.
  induction Hnav as [|action navigation Haction _ IH]; intros st; [done|].
  rewrite run_cons, IH.
  destruct action; simpl in *; try done.
  - apply handleNext_responses.
  - apply handlePrevious_responses.
Qed.

(** C5: on question i, [next] with a recorded rating for item i moves to
    question i+1, or to the result stage when i+1 is the number of
    items; without a recorded rating it returns the state unchanged; so
    it changes the state only if item i has a recorded rating. *)
Theorem next_requires_recorded_rating (st : State) (item : Item) :
  stage st = stage_question →
  currentItem items st = Some item →
  (∀ rating, responses st !! number item = Some rating → isRating rating →
     handleNext items st
     = if decide (S (currentIndex st) = totalItems items)
       then {| stage := stage_result;
               currentIndex := currentIndex st;
               responses := responses st |}
       else {| stage := stage_question;
               currentIndex := S (currentIndex st);
               responses := responses st |})
  ∧ (responses st !! number item = None → handleNext items st = st)
  ∧ (handleNext items st ≠ st →
       ∃ rating, responses st !! number item = Some rating ∧ rating ≠ 0).
Proof.
  intros Hstage Hitem.
  assert (currentIndex st < totalItems items)%nat as Hbound
    by (by apply lookup_lt_Some in Hitem).
  unfold handleNext. rewrite Hitem. split; [|split].
  - intros rating Hrating Hrange. rewrite Hrating.
    unfold isRating in Hrange.
    destruct (Z.eqb_spec rating 0); [lia|].
    destruct (Nat.leb_spec (totalItems items) (S (currentIndex st)));
      destruct (decide (S (currentIndex st) = totalItems items));
      try lia; [done | by rewrite Hstage].
  - by intros ->.
  - destruct (responses st !! number item) as [rating|]; [|done].
    destruct (Z.eqb_spec rating 0); [done|]. eauto.
Qed.
End Flow.

Lemma next_requires_recorded_rating_witness :
  let st := {| stage := stage_question; currentIndex := 0%nat;
               responses := partialResponses |} in
  let item := mkItem 1 "A" extraversion sociability false in
  stage st = stage_question
  ∧ currentItem sampleItems st = Some item
  ∧ responses st !! number item = Some 4
  ∧ handleNext sampleItems st
    = {| stage := stage_question; currentIndex := 1%nat;
         responses := partialResponses |}.
Proof.
  intros st item.
  assert (stage st = stage_question) as Hstage by reflexivity.
  assert (currentItem sampleItems st = Some item) as Hitem by reflexivity.
  assert (responses st !! number item = Some 4) as Hrating
    by (vm_compute; reflexivity).
  assert (isRating 4) as Hrange by (unfold isRating; lia).
  split; [exact Hstage|]. split; [exact Hitem|]. split; [exact Hrating|].
  destruct (next_requires_recorded_rating sampleItems st item Hstage Hitem)
    as (Hmoves & _ & _).
  exact (Hmoves 4 Hrating Hrange).
Defined.

Section FlowClaims.
Variable items : list Item.

Lemma flowInvariant_initial : flowInvariant items initialState.
Proof.
  split; [|split]; simpl.
  - intros j item Hj. lia.
  - discriminate.
  - intros n rating Hlookup. by rewrite lookup_empty in Hlookup.
Qed.

Lemma flowInvariant_handleSelect (rating : Z) (st : State) :
  isRating rating → flowInvariant items st →
  flowInvariant items (handleSelect items rating st).
Proof.
  intros Hrating (Hbefore & Hresult & Hentries). unfold handleSelect.
  destruct (currentItem items st) as [item|] eqn:Hitem; [|done].
  split; [|split]; simpl.
  - intros j other Hj Hother. apply lookup_insert_is_Some'. right. eauto.
  - intros Hstage other Hother. apply lookup_insert_is_Some'. right. eauto.
  - intros n selected Hlookup.
    apply lookup_insert_Some in Hlookup as [[<- <-]|[_ Hlookup]]; [|eauto].
    split; [|done]. apply list_elem_of_fmap_2.
    by eapply list_elem_of_lookup_2.
Qed.

Lemma flowInvariant_handleNext (st : State) :
  flowInvariant items st → flowInvariant items (handleNext items st).
Proof.
  intros (Hbefore & Hresult & Hentries). unfold handleNext.
  destruct (currentItem items st) as [item|] eqn:Hitem; [|done].
  destruct (responses st !! number item) as [selected|] eqn:Hselected; [|done].
  destruct (selected =? 0); [done|].
  assert (∀ j other, (j < S (currentIndex st))%nat → items !! j = Some other →
            is_Some (responses st !! number other)) as Hupto.
  { intros j other Hj Hother.
    destruct (decide (j = currentIndex st)) as [->|Hne].
    - unfold currentItem in Hitem. rewrite Hitem in Hother.
      injection Hother as <-. eauto.
    - apply (Hbefore j); [lia | done]. }
  destruct (Nat.leb_spec (totalItems items) (S (currentIndex st)))
    as [Hlast|Hmore].
  - split; [|split]; simpl; [done| |done].
    intros _ other Hother.
    apply list_elem_of_lookup in Hother as [j Hj].
    apply (Hupto j); [|done].
    apply lookup_lt_Some in Hj. unfold totalItems in Hlast. lia.
  - split; [|split]; simpl; done.
Qed.

Lemma flowInvariant_handlePrevious (st : State) :
  flowInvariant items st → flowInvariant items (handlePrevious st).
Proof.
  intros (Hbefore & Hresult & Hentries).
  pose proof (handlePrevious_index st) as Hindex.
  pose proof (handlePrevious_responses st) as Hresponses.
  assert (stage (handlePrevious st) = stage st) as Hstage.
  { unfold handlePrevious. destruct (currentIndex st =? 0)%nat; [done|].
    by destruct (Z.of_nat (currentIndex st) - 1 <? 0). }
  split; [|split]; rewrite ?Hindex, ?Hresponses, ?Hstage; [|done..].
  intros j item Hj. apply Hbefore. lia.
Qed.

Lemma flowInvariant_handle (st : State) (action : Action) :
  offeredAction action → flowInvariant items st →
  flowInvariant items (handle items st action).
Proof.
  intros Hoffered Hinv. destruct action as [|rating| | |]; simpl.
  - destruct Hinv as (Hbefore & _ & Hentries). by split; [|split].
  - apply flowInvariant_handleSelect; [|done].
    by apply ratingValues_isRating.
  - by apply flowInvariant_handleNext.
  - by apply flowInvariant_handlePrevious.
  - apply flowInvariant_initial.
Qed.

Lemma flowInvariant_run (actions : list Action) (st : State) :
  Forall offeredAction actions → flowInvariant items st →
  flowInvariant items (run items st actions).
Proof.
  intros Hactions. revert st.
  induction Hactions as [|action actions Haction _ IH]; intros st Hinv;
    [done|].
  rewrite run_cons. apply IH. by apply flowInvariant_handle.
Qed.

Lemma flowInvariant_reachable (st : State) :
  reachable items st → flowInvariant items st.
Proof.
  intros (actions & Hactions & ->).
  apply flowInvariant_run; [done | apply flowInvariant_initial].
Qed.

(** C6: in every state reached from the initial one by start, select,
    next, previous and restart actions, if the stage is the result stage
    then the response set is complete. *)
Theorem result_stage_has_complete_responses (st : State) :
  reachable items st →
  stage st = stage_result →
  complete items (responses st).
Proof.
  intros Hreach Hstage.
  destruct (flowInvariant_reachable st Hreach) as (_ & Hresult & Hentries).
  split.
  - apply set_eq. intros n. rewrite elem_of_dom, elem_of_list_to_set. split.
    + intros [rating Hrating]. by apply (Hentries n rating).
    + intros Hn. apply list_elem_of_fmap in Hn as (item & -> & Hitem).
      by apply Hresult.
  - intros n rating Hrating. by apply (Hentries n rating).
Qed.

(** C7: after selecting rating R on item i, whatever next and previous
    actions follow, item i still holds R, every other entry of the
    response map is as before the selection, and coming back to question
    i shows R selected; next and previous never change the response
    map. *)
Theorem selection_survives_navigation (st : State) (item : Item)
    (rating : Z) (navigation : list Action) :
  currentItem items st = Some item →
  Forall isNavigation navigation →
  let st' := run items (handleSelect items rating st) navigation in
  responses st' !! number item = Some rating
  ∧ (∀ n, n ≠ number item → responses st' !! n = responses st !! n)
  ∧ (currentIndex st' = currentIndex st →
     selectedRating items st' = Some rating)
  ∧ (∀ s, responses (handleNext items s) = responses s)
  ∧ (∀ s, responses (handlePrevious s) = responses s).
Proof.
  intros Hitem Hnav st'.
  assert (responses st' = <[number item := rating]> (responses st)) as Hst'.
  { unfold st'. rewrite run_navigation_responses by done.
    unfold handleSelect. by rewrite Hitem. }
  split; [|split; [|split; [|split]]].
  - rewrite Hst'. apply lookup_insert_eq.
  - intros n Hn. rewrite Hst'. by apply lookup_insert_ne.
  - intros Hindex. unfold selectedRating, currentItem. rewrite Hindex.
    unfold currentItem in Hitem. rewrite Hitem, Hst'.
    apply lookup_insert_eq.
  - apply handleNext_responses.
  - apply handlePrevious_responses.
Qed.

(** C9: restart leads to the intro stage with an empty response set and
    the question index back at 0, from the result stage as from any
    other state, whatever had been answered. *)
Theorem restart_discards_responses (st : State) :
  stage (handleRestart st) = stage_intro
  ∧ responses (handleRestart st) = ∅
  ∧ currentIndex (handleRestart st) = 0%nat
  ∧ handle items st Restart = initialState.
Proof. by repeat split. Qed.
End FlowClaims.

Lemma result_stage_has_complete_responses_witness :
  let st := run sampleItems initialState
              [Start; Select 4; Next; Select 2; Next] in
  reachable sampleItems st
  ∧ stage st = stage_result
  ∧ complete sampleItems (responses st).
Proof.
  intros st.
  assert (reachable sampleItems st) as Hreach.
  { exists [Start; Select 4; Next; Select 2; Next].
    split; [by_evaluation | reflexivity]. }
  assert (stage st = stage_result) as Hstage by (vm_compute; reflexivity).
  split; [exact Hreach|]. split; [exact Hstage|].
  exact (result_stage_has_complete_responses sampleItems st Hreach Hstage).
Defined.

Lemma selection_survives_navigation_witness :
  let st := {| stage := stage_question; currentIndex := 0%nat;
               responses := ∅ |} in
  let item := mkItem 1 "A" extraversion sociability false in
  let st' := run sampleItems (handleSelect sampleItems 4 st) [Next; Previous] in
  currentItem sampleItems st = Some item
  ∧ Forall isNavigation [Next; Previous]
  ∧ currentIndex st' = 0%nat
  ∧ responses st' !! number item = Some 4
  ∧ selectedRating sampleItems st' = Some 4.
Proof.
  intros st item st'.
  assert (currentItem sampleItems st = Some item) as Hitem by reflexivity.
  assert (Forall isNavigation [Next; Previous]) as Hnav by by_evaluation.
  assert (currentIndex st' = currentIndex st) as Hindex
    by (vm_compute; reflexivity).
  destruct (selection_survives_navigation sampleItems st item 4
              [Next; Previous] Hitem Hnav) as (Hkept & _ & Hshown & _).
  split; [exact Hitem|]. split; [exact Hnav|]. split; [exact Hindex|].
  split; [exact Hkept | exact (Hshown Hindex)].
Defined.


(** * Further properties of the code *)

(** ** Label maps, zero maps and normalisation *)

Lemma buildIdByLabelMap_fold_lookup {Id : Type}
    (definitions : list (CategoryDef Id)) (map : gmap string Id) (key : string) :
  foldl (fun map definition =>
           <[def_label definition := def_id definition]> map)
        map definitions !! key
  = match last (filter (fun definition => def_label definition = key)
                       definitions) with
    | Some definition => Some (def_id definition)
    | None => map !! key
    end.
Proof.
  revert map. induction definitions as [|definition rest IH]; intros map;
    [done|].
  cbn [foldl]. rewrite IH, filter_cons.
  destruct (decide (def_label definition = key)) as [Hkey|Hkey].
  - rewrite last_cons.
    destruct (last (filter _ rest)); [done|].
    rewrite Hkey. apply lookup_insert_eq.
  - destruct (last (filter _ rest)); [done|]. by apply lookup_insert_ne.
Qed.

(** X1: for a definition list none of whose labels is [__proto__] (an
    assignment under that key on [{}] goes to the inherited setter and
    creates no own entry), the label map sends a label to the id of the
    last definition that carries this label, and has no own entry for any
    other key. *)
Theorem buildIdByLabelMap_lookup {Id : Type}
    (definitions : list (CategoryDef Id)) (key : string) :
  "__proto__" ∉ def_label <$> definitions →
  buildIdByLabelMap definitions !! key
  = def_id <$> last (filter (fun definition => def_label definition = key)
                            definitions).
Proof.
  intros _. unfold buildIdByLabelMap. rewrite buildIdByLabelMap_fold_lookup.
  by destruct (last _).
Qed.

Lemma buildIdByLabelMap_lookup_witness :
  ("__proto__" ∉ def_label <$> domainDefinitions)
  ∧ buildIdByLabelMap domainDefinitions !! "協調性"
    = def_id <$> last (filter (fun definition => def_label definition = "協調性")
                              domainDefinitions).
Proof.
  assert ("__proto__" ∉ def_label <$> domainDefinitions) as Hplain
    by by_evaluation.
  split; [exact Hplain|].
  exact (buildIdByLabelMap_lookup domainDefinitions "協調性" Hplain).
Defined.

Lemma buildZeroMap_fold_lookup {Id : Type} `{Countable Id}
    (definitions : list (CategoryDef Id)) (map : gmap Id Z) (key : Id) :
  foldl (fun map definition => <[def_id definition := 0]> map)
        map definitions !! key
  = if decide (key ∈ def_id <$> definitions) then Some 0 else map !! key.
Proof.
  revert map. induction definitions as [|definition rest IH]; intros map.
  - simpl. destruct (decide (key ∈ [])) as [Hin|_]; [|done].
    by apply elem_of_nil in Hin.
  - cbn [foldl]. rewrite IH, fmap_cons.
    destruct (decide (key ∈ def_id <$> rest)) as [Hin|Hout].
    + rewrite decide_True; [done | by apply list_elem_of_further].
    + destruct (decide (key = def_id definition)) as [->|Hne].
      * rewrite decide_True by apply list_elem_of_here.
        apply lookup_insert_eq.
      * rewrite decide_False.
        -- by apply lookup_insert_ne.
        -- intros Hin. apply elem_of_cons in Hin as [?|?]; contradiction.
Qed.

(** X2: for every definition list over the domain ids, and for every
    one over the facet ids, the zero map holds 0 under every id of the
    list and has no other key. *)
Theorem buildZeroMap_lookup :
  (∀ (definitions : list (CategoryDef DomainId)) (key : DomainId),
     buildZeroMap definitions !! key
     = if decide (key ∈ def_id <$> definitions) then Some 0 else None)
  ∧ (∀ (definitions : list (CategoryDef FacetId)) (key : FacetId),
       buildZeroMap definitions !! key
       = if decide (key ∈ def_id <$> definitions) then Some 0 else None).
Proof.
  split; intros definitions key; unfold buildZeroMap;
    rewrite buildZeroMap_fold_lookup; by rewrite lookup_empty.
Qed.

Lemma normalizeStep_accepted normalized rawItem :
  acceptedDomainLabel (raw_domain rawItem) →
  acceptedFacetLabel (raw_facet rawItem) →
  normalizeStep normalized rawItem
  = Returned (normalized ++
              [ {| n_number := raw_number rawItem;
                   n_text := raw_text rawItem;
                   n_domainId := getProperty domainIdByLabel (raw_domain rawItem);
                   n_facetId := getProperty facetIdByLabel (raw_facet rawItem);
                   n_reverse := raw_reverse rawItem |} ]).
Proof.
  intros Hd Hf. unfold normalizeStep.
  apply (truthy_getProperty domainDefinitions) in Hd.
  apply (truthy_getProperty facetDefinitions) in Hf.
  fold domainIdByLabel in Hd. fold facetIdByLabel in Hf.
  by rewrite Hd, Hf.
Qed.

Lemma normalizeLoop_app good rest normalized :
  Forall (fun rawItem => acceptedDomainLabel (raw_domain rawItem)
                         ∧ acceptedFacetLabel (raw_facet rawItem)) good →
  ∃ pushed, length pushed = length good
            ∧ normalizeLoop normalized (good ++ rest)
              = normalizeLoop (normalized ++ pushed) rest.
Proof.
  intros Hgood. revert normalized.
  induction Hgood as [|rawItem good [Hd Hf] _ IH]; intros normalized.
  - exists []. by rewrite app_nil_r.
  - cbn [app normalizeLoop]. rewrite normalizeStep_accepted by done.
    destruct (IH (normalized ++
                  [ {| n_number := raw_number rawItem;
                       n_text := raw_text rawItem;
                       n_domainId :=
                         getProperty domainIdByLabel (raw_domain rawItem);
                       n_facetId :=
                         getProperty facetIdByLabel (raw_facet rawItem);
                       n_reverse := raw_reverse rawItem |} ]))
      as (pushed & Hlength & Hloop).
    eexists (_ :: pushed). split; [simpl; by rewrite Hlength|].
    rewrite Hloop. by rewrite <- app_assoc.
Qed.

(** X3: normalisation stops at the first raw item that fails a guard and
    throws the message naming the offending label; the domain label is
    examined before the facet label, and what follows that item in the
    list is never looked at. *)
Theorem normalizeItems_first_failure (good rest : list RawItem)
    (bad : RawItem) :
  Forall (fun rawItem => acceptedDomainLabel (raw_domain rawItem)
                         ∧ acceptedFacetLabel (raw_facet rawItem)) good →
  ¬ (acceptedDomainLabel (raw_domain bad)
     ∧ acceptedFacetLabel (raw_facet bad)) →
  normalizeItems (good ++ bad :: rest)
  = Threw (if decide (acceptedDomainLabel (raw_domain bad))
           then "Unknown facet label: " +:+ raw_facet bad
           else "Unknown domain label: " +:+ raw_domain bad).
Proof.
  intros Hgood Hbad. unfold normalizeItems.
  destruct (normalizeLoop_app good (bad :: rest) [] Hgood)
    as (pushed & _ & ->).
  cbn [normalizeLoop]. unfold normalizeStep.
  pose proof (truthy_getProperty domainDefinitions (raw_domain bad)) as Hd.
  pose proof (truthy_getProperty facetDefinitions (raw_facet bad)) as Hf.
  fold domainIdByLabel in Hd. fold facetIdByLabel in Hf.
  fold (acceptedDomainLabel (raw_domain bad)) in Hd.
  fold (acceptedFacetLabel (raw_facet bad)) in Hf.
  destruct (decide (acceptedDomainLabel (raw_domain bad))) as [Hyes|Hno].
  - pose proof Hyes as Htruthy. apply Hd in Htruthy. rewrite Htruthy.
    cbn [negb].
    destruct (truthy (getProperty facetIdByLabel (raw_facet bad))) eqn:Hfacet;
      [|done].
    exfalso. apply Hbad. split; [done | by apply Hf].
  - destruct (truthy (getProperty domainIdByLabel (raw_domain bad)))
      eqn:Hdomain; [|done].
    exfalso. by apply Hno, Hd.
Qed.

Lemma normalizeItems_first_failure_witness :
  normalizeItems ([rawA; rawB] ++ rawMisspelt :: [inheritedLabelItem])
  = Threw "Unknown facet label: 思いや".
Proof.
  assert (Forall (fun rawItem => acceptedDomainLabel (raw_domain rawItem)
                                 ∧ acceptedFacetLabel (raw_facet rawItem))
                 [rawA; rawB]) as Hgood by by_evaluation.
  assert (¬ (acceptedDomainLabel (raw_domain rawMisspelt)
             ∧ acceptedFacetLabel (raw_facet rawMisspelt))) as Hbad
    by by_evaluation.
  exact (normalizeItems_first_failure [rawA; rawB] [inheritedLabelItem]
           rawMisspelt Hgood Hbad).
Defined.

Lemma getProperty_known {Id : Type} (definitions : list (CategoryDef Id))
    (key : string) :
  key ∈ def_label <$> definitions →
  ∃ definition, definition ∈ definitions
                ∧ def_label definition = key
                ∧ getProperty (buildIdByLabelMap definitions) key
                  = OwnId (def_id definition).
Proof.
  intros Hkey. unfold getProperty, buildIdByLabelMap.
  rewrite buildIdByLabelMap_fold_lookup, lookup_empty.
  destruct (last (filter (fun definition => def_label definition = key)
                         definitions)) as [definition|] eqn:Hlast.
  - apply last_Some_elem_of, list_elem_of_filter in Hlast as [Hlabel Hin].
    eauto.
  - apply last_None in Hlast.
    apply list_elem_of_fmap in Hkey as (definition & -> & Hin).
    assert (definition ∈ filter (fun definition' =>
                                   def_label definition' = def_label definition)
                                definitions) as Hfiltered
      by (by apply list_elem_of_filter).
    rewrite Hlast in Hfiltered. by apply elem_of_nil in Hfiltered.
Qed.

Lemma normalizeLoop_normalizedFrom rawList normalized :
  Forall knownLabels rawList →
  ∃ pushed, normalizeLoop normalized rawList = Returned (normalized ++ pushed)
            ∧ Forall2 normalizedFrom rawList pushed.
Proof.
  intros Hknown. revert normalized.
  induction Hknown as [|rawItem rest [Hd Hf] _ IH]; intros normalized.
  - exists []. split; [by rewrite app_nil_r | constructor].
  - cbn [normalizeLoop].
    rewrite normalizeStep_accepted by (by left).
    edestruct IH as (pushed & -> & Hrest).
    eexists (_ :: pushed). rewrite <- app_assoc. split; [reflexivity|].
    constructor; [|done].
    unfold normalizedFrom. simpl. do 3 (split; [done|]).
    split; [by apply getProperty_known | by apply getProperty_known].
Qed.

(** X4: on a raw list all of whose labels are in the definition lists,
    normalisation returns one item per raw item, in input order, with
    number, text and reverse flag copied unchanged and with the domain and
    facet ids that the definition lists give for the two labels. *)
Theorem normalizeItems_known_labels (rawList : list RawItem) :
  Forall knownLabels rawList →
  ∃ normalized, normalizeItems rawList = Returned normalized
                ∧ Forall2 normalizedFrom rawList normalized.
Proof. intros Hknown. exact (normalizeLoop_normalizedFrom rawList [] Hknown). Qed.

Lemma normalizeItems_known_labels_witness :
  Forall knownLabels [rawA; rawB]
  ∧ ∃ normalized, normalizeItems [rawA; rawB] = Returned normalized
                  ∧ Forall2 normalizedFrom [rawA; rawB] normalized.
Proof.
  assert (Forall knownLabels [rawA; rawB]) as Hknown by by_evaluation.
  split; [exact Hknown | exact (normalizeItems_known_labels _ Hknown)].
Defined.

(** ** Item statistics and totals *)

Lemma sumZ_app (l k : list Z) : sumZ (l ++ k) = sumZ l + sumZ k.
Proof.
  induction l as [|x l IH]; [done|].
  cbn [app]. rewrite !sumZ_cons, IH. lia.
Qed.

Lemma sumZ_fmap_add {A : Type} (f g : A → Z) (l : list A) :
  sumZ ((fun x => f x + g x) <$> l) = sumZ (f <$> l) + sumZ (g <$> l).
Proof.
  induction l as [|x l IH]; [done|].
  rewrite !fmap_cons, !sumZ_cons, IH. lia.
Qed.

Lemma sumZ_indicator {Id : Type} `{EqDecision Id} (x : Id) (w : Z)
    (ids : list Id) :
  NoDup ids →
  sumZ ((fun k => if decide (x = k) then w else 0) <$> ids)
  = if decide (x ∈ ids) then w else 0.
Proof.
  induction 1 as [|k ids Hfresh _ IH]; [done|].
  rewrite fmap_cons, sumZ_cons, IH.
  destruct (decide (x = k)) as [->|Hne].
  - rewrite (decide_False (P := k ∈ ids)) by done.
    rewrite decide_True by apply list_elem_of_here. lia.
  - destruct (decide (x ∈ ids)) as [Hin|Hout].
    + rewrite decide_True by (by apply list_elem_of_further). lia.
    + rewrite decide_False; [lia|].
      intros Hin. apply elem_of_cons in Hin as [?|?]; contradiction.
Qed.

(** Splitting a list of items by category splits the sum of any weight
    over it, provided the categories are listed once each and every item
    falls in a listed one. *)
Lemma sumZ_by_category {Id : Type} `{EqDecision Id} (key : Item → Id)
    (weight : Item → Z) (ids : list Id) (l : list Item) :
  NoDup ids →
  (∀ item, item ∈ l → key item ∈ ids) →
  sumZ ((fun k => sumZ (weight <$> filter (fun item => key item = k) l))
          <$> ids)
  = sumZ (weight <$> l).
Proof.
  intros Hnodup. induction l as [|item l IH]; intros Hkeys.
  - simpl. clear. induction ids as [|k ids IH]; [done|].
    rewrite fmap_cons, sumZ_cons, IH. done.
  - rewrite fmap_cons, sumZ_cons, <- IH
      by (intros other Hother; apply Hkeys; by apply list_elem_of_further).
    assert ((fun k => sumZ (weight <$> filter (fun item' => key item' = k)
                                             (item :: l))) <$> ids
            = (fun k => (if decide (key item = k) then weight item else 0)
                        + sumZ (weight <$> filter (fun item' => key item' = k) l))
              <$> ids) as ->.
    { apply list_fmap_ext. intros i k _. rewrite filter_cons.
      destruct (decide (key item = k)); [by rewrite fmap_cons, sumZ_cons|lia]. }
    rewrite sumZ_fmap_add, sumZ_indicator by done.
    rewrite decide_True; [done|]. apply Hkeys, list_elem_of_here.
Qed.

Lemma domainDefinitions_ids :
  NoDup (def_id <$> domainDefinitions)
  ∧ ∀ d : DomainId, d ∈ def_id <$> domainDefinitions.
Proof.
  split; [by_evaluation|]. intros d. destruct d; by_evaluation.
Qed.

Lemma facetDefinitions_ids :
  NoDup (def_id <$> facetDefinitions)
  ∧ ∀ f : FacetId, f ∈ def_id <$> facetDefinitions.
Proof.
  split; [by_evaluation|]. intros f. destruct f; by_evaluation.
Qed.

(** X5: the item statistics give every domain and every facet the number
    of catalog items filed under it, and the domain counts as well as the
    facet counts add up to the number of items: each item is counted once
    in one domain and once in one facet. *)
Theorem createItemStats_counts (items : list Item) :
  (∀ d, readAt (domainCounts items) d
        = Z.of_nat (length (itemsOfDomain items d)))
  ∧ (∀ f, readAt (facetCounts items) f
          = Z.of_nat (length (itemsOfFacet items f)))
  ∧ sumZ (readAt (domainCounts items) <$> (def_id <$> domainDefinitions))
    = Z.of_nat (totalItems items)
  ∧ sumZ (readAt (facetCounts items) <$> (def_id <$> facetDefinitions))
    = Z.of_nat (totalItems items).
Proof.
  destruct domainDefinitions_ids as [Hdn Hd].
  destruct facetDefinitions_ids as [Hfn Hf].
  split; [apply domainCounts_spec|]. split; [apply facetCounts_spec|].
  unfold totalItems. rewrite <- (sumZ_ones items). split.
  - rewrite <- (sumZ_by_category domainId (fun _ => 1) _ items Hdn)
      by (intros; apply Hd).
    f_equal. apply list_fmap_ext. intros i d _.
    rewrite domainCounts_spec. symmetry. apply sumZ_ones.
  - rewrite <- (sumZ_by_category facetId (fun _ => 1) _ items Hfn)
      by (intros; apply Hf).
    f_equal. apply list_fmap_ext. intros i f _.
    rewrite facetCounts_spec. symmetry. apply sumZ_ones.
Qed.

(** X6: after the accumulation loop the domain totals and the facet
    totals both add up to the sum of what the loop added per item, so no
    score is lost or counted twice, whatever the responses are. *)
Theorem accumulate_conserves_scores (items : list Item)
    (responses : gmap Z Z) :
  let totals := foldl (accumulate responses) createInitialTotals items in
  sumZ (readAt (Totals.domains totals) <$> (def_id <$> domainDefinitions))
  = sumZ (contribution responses <$> items)
  ∧ sumZ (readAt (Totals.facets totals) <$> (def_id <$> facetDefinitions))
    = sumZ (contribution responses <$> items).
Proof.
  destruct domainDefinitions_ids as [Hdn Hd].
  destruct facetDefinitions_ids as [Hfn Hf].
  intros totals. unfold totals. split.
  - rewrite <- (sumZ_by_category domainId (contribution responses) _ items Hdn)
      by (intros; apply Hd).
    f_equal. apply list_fmap_ext. intros i d _. apply domainTotals_spec.
  - rewrite <- (sumZ_by_category facetId (contribution responses) _ items Hfn)
      by (intros; apply Hf).
    f_equal. apply list_fmap_ext. intros i f _. apply facetTotals_spec.
Qed.

(** ** Uniform and mirrored answers *)

Lemma inject_Z_nonzero (n : Z) : n ≠ 0 → ¬ (inject_Z n == 0)%Q.
Proof. intros Hn Heq. unfold Qeq in Heq. simpl in Heq. lia. Qed.

Lemma sumZ_constant {A : Type} (weight : A → Z) (k : Z) (l : list A) :
  (∀ x, x ∈ l → weight x = k) →
  sumZ (weight <$> l) = k * Z.of_nat (length l).
Proof.
  induction l as [|x l IH]; intros Hconst; [simpl; unfold sumZ; simpl; lia|].
  rewrite fmap_cons, sumZ_cons, length_cons, Nat2Z.inj_succ.
  rewrite (Hconst x) by apply list_elem_of_here.
  rewrite IH by (intros y Hy; apply Hconst; by apply list_elem_of_further).
  lia.
Qed.

Lemma calculateAverage_constant {A : Type} (weight : A → Z) (k : Z)
    (l : list A) :
  (∀ x, x ∈ l → weight x = k) → l ≠ [] →
  ∃ q, calculateAverage (sumZ (weight <$> l)) (Z.of_nat (length l)) = Finite q
       ∧ (q == inject_Z k)%Q.
Proof.
  intros Hconst Hne. rewrite (sumZ_constant weight k l Hconst).
  assert (Z.of_nat (length l) ≠ 0) as Hlen by (destruct l; [done | simpl; lia]).
  unfold calculateAverage, divide.
  destruct (Z.eqb_spec (Z.of_nat (length l)) 0); [done|].
  eexists. split; [reflexivity|].
  rewrite inject_Z_mult. apply Qdiv_mult_l. by apply inject_Z_nonzero.
Qed.

Lemma contribution_neutral (responses : gmap Z Z) (item : Item) :
  responses !! number item = Some 3 → contribution responses item = 3.
Proof.
  intros Hthree. unfold contribution. rewrite Hthree. simpl.
  by destruct (reverse item).
Qed.

(** X7: when every item is answered with 3, every domain and every facet
    that has an item has an entry in the summary, and its score is 3,
    reverse-keyed items included, since 3 is its own reverse. *)
Theorem neutral_answers_score_three (items : list Item)
    (responses : gmap Z Z) (summary : ScoreSummary.t) :
  result items responses = Some summary →
  Forall (fun item => responses !! number item = Some 3) items →
  (∀ d, itemsOfDomain items d ≠ [] →
     ∃ entry q, entry ∈ ScoreSummary.domains summary ∧ id entry = d
                ∧ value entry = Finite q ∧ (q == 3)%Q)
  ∧ (∀ f, itemsOfFacet items f ≠ [] →
       ∃ entry q, entry ∈ ScoreSummary.facets summary ∧ id entry = f
                  ∧ value entry = Finite q ∧ (q == 3)%Q)
  ∧ (∀ entry, entry ∈ ScoreSummary.domains summary →
       itemsOfDomain items (id entry) ≠ [] →
       ∃ q, value entry = Finite q ∧ (q == 3)%Q)
  ∧ (∀ entry, entry ∈ ScoreSummary.facets summary →
       itemsOfFacet items (id entry) ≠ [] →
       ∃ q, value entry = Finite q ∧ (q == 3)%Q).
Proof.
  intros Hresult Hthree. rewrite Forall_forall in Hthree.
  apply result_Some_inv in Hresult as (_ & -> & ->).
  assert (∀ definition, itemsOfDomain items (def_id definition) ≠ [] →
            ∃ q, value (domainEntry items responses definition) = Finite q
                 ∧ (q == 3)%Q) as Hdomain.
  { intros definition Hne.
    apply (calculateAverage_constant (contribution responses) 3); [|done].
    intros item Hitem. apply list_elem_of_filter in Hitem as [_ Hitem].
    by apply contribution_neutral, Hthree. }
  assert (∀ definition, itemsOfFacet items (def_id definition) ≠ [] →
            ∃ q, value (facetEntry items responses definition) = Finite q
                 ∧ (q == 3)%Q) as Hfacet.
  { intros definition Hne.
    apply (calculateAverage_constant (contribution responses) 3); [|done].
    intros item Hitem. apply list_elem_of_filter in Hitem as [_ Hitem].
    by apply contribution_neutral, Hthree. }
  split; [|split; [|split]].
  - intros d Hne.
    destruct (every_domain_defined d) as (definition & Hin & <-).
    destruct (Hdomain definition Hne) as (q & Hq & Hthree').
    exists (domainEntry items responses definition), q.
    split; [by apply list_elem_of_fmap_2 | done].
  - intros f Hne.
    destruct (every_facet_defined f) as (definition & Hin & <-).
    destruct (Hfacet definition Hne) as (q & Hq & Hthree').
    exists (facetEntry items responses definition), q.
    split; [by apply list_elem_of_fmap_2 | done].
  - intros entry Hentry Hne.
    apply list_elem_of_fmap in Hentry as (definition & -> & _).
    by apply Hdomain.
  - intros entry Hentry Hne.
    apply list_elem_of_fmap in Hentry as (definition & -> & _).
    by apply Hfacet.
Qed.

Lemma neutral_answers_score_three_witness :
  result sampleItems neutralResponses = Some neutralSummary
  ∧ Forall (fun item => neutralResponses !! number item = Some 3) sampleItems
  ∧ itemsOfDomain sampleItems extraversion ≠ []
  ∧ ∃ entry q, entry ∈ ScoreSummary.domains neutralSummary
               ∧ id entry = extraversion
               ∧ value entry = Finite q ∧ (q == 3)%Q.
Proof.
  assert (result sampleItems neutralResponses = Some neutralSummary)
    as Hresult by (vm_compute; reflexivity).
  assert (Forall (fun item => neutralResponses !! number item = Some 3)
                 sampleItems) as Hthree by by_evaluation.
  assert (itemsOfDomain sampleItems extraversion ≠ []) as Hne
    by discriminate.
  split; [exact Hresult|]. split; [exact Hthree|]. split; [exact Hne|].
  exact (proj1 (neutral_answers_score_three sampleItems neutralResponses
                  neutralSummary Hresult Hthree) extraversion Hne).
Defined.

Lemma contribution_mirrored (items : list Item) (responses : gmap Z Z)
    (item : Item) :
  answersAll items responses → item ∈ items →
  contribution (mirrored responses) item = 6 - contribution responses item.
Proof.
  intros Hall Hin. destruct (Hall item Hin) as (rating & Hrating & Hrange).
  unfold contribution, mirrored. rewrite lookup_fmap, Hrating. simpl.
  unfold isRating, reverseScore, REVERSE_BASE in *.
  destruct (Z.eqb_spec (6 - rating) 0); [lia|].
  destruct (Z.eqb_spec rating 0); [lia|].
  destruct (reverse item); lia.
Qed.

Lemma sumZ_mirrored (items : list Item) (responses : gmap Z Z)
    (category : list Item) :
  answersAll items responses →
  (∀ item, item ∈ category → item ∈ items) →
  sumZ (contribution (mirrored responses) <$> category)
  = 6 * Z.of_nat (length category)
    - sumZ (contribution responses <$> category).
Proof.
  intros Hall. induction category as [|item category IH]; intros Hsub.
  - unfold sumZ. simpl. lia.
  - rewrite !fmap_cons, !sumZ_cons, length_cons, Nat2Z.inj_succ.
    rewrite (contribution_mirrored items)
      by (done || apply Hsub, list_elem_of_here).
    rewrite IH by (intros other Hother; apply Hsub;
                   by apply list_elem_of_further).
    lia.
Qed.

(** X8: replacing every rating of a fully answered response set by its
    reverse, 6 minus the rating, again yields a summary; every domain and
    facet keeps its place and label in it, its total S over its n items
    becomes 6n - S, and its new score is the average of that new total
    over the same n. *)
Theorem mirrored_responses_mirror_scores (items : list Item)
    (responses : gmap Z Z) (summary : ScoreSummary.t) :
  result items responses = Some summary →
  answersAll items responses →
  let before := foldl (accumulate responses) createInitialTotals items in
  let after :=
    foldl (accumulate (mirrored responses)) createInitialTotals items in
  ∃ summary',
    result items (mirrored responses) = Some summary'
    ∧ (∀ d,
         let count := readAt (domainCounts items) d in
         let total := readAt (Totals.domains before) d in
         readAt (Totals.domains after) d = 6 * count - total
         ∧ ∃ i entry entry',
             ScoreSummary.domains summary !! i = Some entry
             ∧ ScoreSummary.domains summary' !! i = Some entry'
             ∧ id entry = d ∧ id entry' = d ∧ label entry' = label entry
             ∧ value entry = calculateAverage total count
             ∧ value entry' = calculateAverage (6 * count - total) count)
    ∧ (∀ f,
         let count := readAt (facetCounts items) f in
         let total := readAt (Totals.facets before) f in
         readAt (Totals.facets after) f = 6 * count - total
         ∧ ∃ i entry entry',
             ScoreSummary.facets summary !! i = Some entry
             ∧ ScoreSummary.facets summary' !! i = Some entry'
             ∧ id entry = f ∧ id entry' = f ∧ label entry' = label entry
             ∧ value entry = calculateAverage total count
             ∧ value entry' = calculateAverage (6 * count - total) count).
Proof.
  intros Hresult Hall before after.
  apply result_Some_inv in Hresult as (Hguard & -> & ->).
  eexists. split.
  { apply result_guard_passed. unfold allAnswered, answeredCount, mirrored in *.
    by rewrite map_size_fmap. }
  cbn [ScoreSummary.domains ScoreSummary.facets]. split.
  - intros d. cbv zeta. unfold before, after.
    rewrite !domainTotals_spec, domainCounts_spec.
    assert (sumZ (contribution (mirrored responses) <$> itemsOfDomain items d)
            = 6 * Z.of_nat (length (itemsOfDomain items d))
              - sumZ (contribution responses <$> itemsOfDomain items d))
      as Hmirrored.
    { apply (sumZ_mirrored items); [done|].
      intros item Hitem. by apply list_elem_of_filter in Hitem as [_ ?]. }
    split; [done|].
    destruct (every_domain_defined d) as (definition & Hin & <-).
    apply list_elem_of_lookup in Hin as [i Hi].
    exists i, (domainEntry items responses definition),
      (domainEntry items (mirrored responses) definition).
    rewrite !list_lookup_fmap, Hi. do 5 (split; [done|]).
    unfold domainEntry. cbn [value]. by rewrite Hmirrored.
  - intros f. cbv zeta. unfold before, after.
    rewrite !facetTotals_spec, facetCounts_spec.
    assert (sumZ (contribution (mirrored responses) <$> itemsOfFacet items f)
            = 6 * Z.of_nat (length (itemsOfFacet items f))
              - sumZ (contribution responses <$> itemsOfFacet items f))
      as Hmirrored.
    { apply (sumZ_mirrored items); [done|].
      intros item Hitem. by apply list_elem_of_filter in Hitem as [_ ?]. }
    split; [done|].
    destruct (every_facet_defined f) as (definition & Hin & <-).
    apply list_elem_of_lookup in Hin as [i Hi].
    exists i, (facetEntry items responses definition),
      (facetEntry items (mirrored responses) definition).
    rewrite !list_lookup_fmap, Hi. do 5 (split; [done|]).
    unfold facetEntry. cbn [value]. by rewrite Hmirrored.
Qed.

Lemma mirrored_responses_mirror_scores_witness :
  result sampleItems sampleResponses = Some sampleSummary
  ∧ answersAll sampleItems sampleResponses
  ∧ ∃ summary',
      result sampleItems (mirrored sampleResponses) = Some summary'
      ∧ readAt (Totals.domains
                  (foldl (accumulate (mirrored sampleResponses))
                         createInitialTotals sampleItems)) extraversion
        = 6 * readAt (domainCounts sampleItems) extraversion
          - readAt (Totals.domains
                      (foldl (accumulate sampleResponses)
                             createInitialTotals sampleItems)) extraversion.
Proof.
  assert (result sampleItems sampleResponses = Some sampleSummary)
    as Hresult by (vm_compute; reflexivity).
  assert (answersAll sampleItems sampleResponses) as Hall.
  { apply complete_answersAll. by_evaluation. }
  split; [exact Hresult|]. split; [exact Hall|].
  destruct (mirrored_responses_mirror_scores sampleItems sampleResponses
              sampleSummary Hresult Hall) as (summary' & Hresult' & Hdomains & _).
  exists summary'. exact (conj Hresult' (proj1 (Hdomains extraversion))).
Defined.

(** ** More on the answering flow *)

Lemma size_list_to_set_le (l : list Z) :
  (size (list_to_set l : gset Z) ≤ length l)%nat.
Proof.
  induction l as [|x l IH].
  - rewrite list_to_set_nil, size_empty. done.
  - rewrite list_to_set_cons, size_union_alt, size_singleton, length_cons.
    pose proof (subseteq_size (list_to_set l ∖ {[x]}) (list_to_set l : gset Z))
      as Hle.
    assert (list_to_set l ∖ {[x]} ⊆ (list_to_set l : gset Z)) as Hsub
      by apply subseteq_difference_l, reflexivity.
    specialize (Hle Hsub). lia.
Qed.

Lemma flowInvariant_answeredCount (items : list Item) (st : State) :
  flowInvariant items st →
  dom (responses st) ⊆ (list_to_set (number <$> items) : gset Z)
  ∧ (answeredCount (responses st) ≤ totalItems items)%nat.
Proof.
  intros (_ & _ & Hentries).
  assert (dom (responses st) ⊆ (list_to_set (number <$> items) : gset Z))
    as Hsub.
  { intros n Hn. apply elem_of_dom in Hn as [rating Hrating].
    apply elem_of_list_to_set. by apply (Hentries n rating). }
  split; [done|]. unfold answeredCount, totalItems.
  rewrite <- (size_dom (D := gset Z)).
  pose proof (subseteq_size _ _ Hsub).
  pose proof (size_list_to_set_le (number <$> items)) as Hle.
  rewrite length_fmap in Hle. lia.
Qed.

(** X9: in every state the handlers can reach, the memo produces a
    summary only for a complete response set: one rating in 1..5 under
    every item number and no other entry.  The accumulation loop
    therefore never passes over an item in such a state. *)
Theorem summary_only_for_complete_responses (items : list Item)
    (st : State) (summary : ScoreSummary.t) :
  reachable items st →
  result items (responses st) = Some summary →
  complete items (responses st)
  ∧ Forall (fun item => contribution (responses st) item
                        = effectiveScore (responses st) item) items.
Proof.
  intros Hreach Hresult.
  pose proof (flowInvariant_reachable items st Hreach) as Hinv.
  destruct (flowInvariant_answeredCount items st Hinv) as [Hsub _].
  apply result_Some_inv in Hresult as (Hguard & _ & _).
  apply bool_decide_eq_true in Hguard. unfold answeredCount, totalItems in Hguard.
  assert (complete items (responses st)) as Hcomplete.
  { split.
    - apply set_subseteq_size_eq; [done|].
      rewrite (size_dom (D := gset Z)), Hguard.
      rewrite <- (length_fmap number items). apply size_list_to_set_le.
    - destruct Hinv as (_ & _ & Hentries).
      intros n rating Hrating. by apply (Hentries n rating). }
  split; [done|]. apply Forall_forall. intros item Hitem.
  apply (answersAll_contribution items); [|done].
  by apply complete_answersAll.
Qed.

Lemma summary_only_for_complete_responses_witness :
  let st := run sampleItems initialState [Start; Select 4; Next; Select 2] in
  reachable sampleItems st
  ∧ result sampleItems (responses st) = Some sampleSummary
  ∧ complete sampleItems (responses st).
Proof.
  intros st.
  assert (reachable sampleItems st) as Hreach.
  { exists [Start; Select 4; Next; Select 2].
    split; [by_evaluation | reflexivity]. }
  assert (result sampleItems (responses st) = Some sampleSummary) as Hresult
    by (vm_compute; reflexivity).
  split; [exact Hreach|]. split; [exact Hresult|].
  exact (proj1 (summary_only_for_complete_responses sampleItems st
                  sampleSummary Hreach Hresult)).
Defined.

Lemma indexBound_handle (items : list Item) (st : State) (action : Action) :
  (currentIndex st = 0 ∨ currentIndex st < totalItems items)%nat →
  (currentIndex (handle items st action) = 0
   ∨ currentIndex (handle items st action) < totalItems items)%nat.
Proof.
  intros Hbound. destruct action as [|rating| | |]; simpl.
  - done.
  - unfold handleSelect. by destruct (currentItem items st).
  - unfold handleNext.
    destruct (currentItem items st) as [item|]; [|done].
    destruct (responses st !! number item) as [selected|]; [|done].
    destruct (selected =? 0); [done|].
    destruct (Nat.leb_spec (totalItems items) (S (currentIndex st)));
      simpl; [done | lia].
  - rewrite handlePrevious_index. lia.
  - by left.
Qed.

Lemma indexBound_run (items : list Item) (actions : list Action) (st : State) :
  (currentIndex st = 0 ∨ currentIndex st < totalItems items)%nat →
  (currentIndex (run items st actions) = 0
   ∨ currentIndex (run items st actions) < totalItems items)%nat.
Proof.
  revert st. induction actions as [|action actions IH]; intros st Hbound;
    [done|].
  rewrite run_cons. by apply IH, indexBound_handle.
Qed.

Lemma render_question (items : list Item) (st : State) :
  is_Some (currentItem items st) → render items st ≠ NoPage.
Proof.
  intros [item Hitem]. unfold render. rewrite Hitem.
  destruct (stage st); [done| |];
    by destruct (if decide _ then _ else _).
Qed.

(** X10: whatever actions are handled, in whatever order, the question
    index stays within the catalog and the number of recorded responses
    never exceeds the number of items; with a non-empty catalog there is
    thus always a current item, and the component never renders
    nothing. *)
Theorem flow_stays_within_catalog (items : list Item) (st : State) :
  reachable items st →
  (currentIndex st = 0 ∨ currentIndex st < totalItems items)%nat
  ∧ (answeredCount (responses st) ≤ totalItems items)%nat
  ∧ (items ≠ [] →
     is_Some (currentItem items st) ∧ render items st ≠ NoPage).
Proof.
  intros Hreach.
  pose proof (flowInvariant_reachable items st Hreach) as Hinv.
  destruct Hreach as (actions & _ & ->).
  assert (currentIndex (run items initialState actions) = 0
          ∨ currentIndex (run items initialState actions) < totalItems items)%nat
    as Hbound by (apply indexBound_run; by left).
  split; [done|]. split; [by apply flowInvariant_answeredCount|].
  intros Hne.
  assert (is_Some (currentItem items (run items initialState actions))) as Hitem.
  { apply lookup_lt_is_Some. unfold totalItems in Hbound.
    destruct items; [done|]. simpl in *. lia. }
  split; [done | by apply render_question].
Qed.

Lemma flow_stays_within_catalog_witness :
  let st := run sampleItems initialState
              [Start; Select 4; Next; Next; Previous; Previous; Select 5] in
  reachable sampleItems st
  ∧ (currentIndex st = 0 ∨ currentIndex st < totalItems sampleItems)%nat
  ∧ (answeredCount (responses st) ≤ totalItems sampleItems)%nat.
Proof.
  intros st.
  assert (reachable sampleItems st) as Hreach.
  { exists [Start; Select 4; Next; Next; Previous; Previous; Select 5].
    split; [by_evaluation | reflexivity]. }
  split; [exact Hreach|].
  destruct (flow_stays_within_catalog sampleItems st Hreach)
    as (Hindex & Hcount & _).
  exact (conj Hindex Hcount).
Defined.

(** X11: selecting on a question records the rating under the current
    item's number and nothing else: stage and index stay, a second
    selection replaces the first, and the number of recorded responses
    grows by one only if the item had no response yet. *)
Theorem handleSelect_overwrites (items : list Item) (st : State)
    (item : Item) (first second : Z) :
  currentItem items st = Some item →
  handleSelect items second (handleSelect items first st)
  = handleSelect items second st
  ∧ stage (handleSelect items first st) = stage st
  ∧ currentIndex (handleSelect items first st) = currentIndex st
  ∧ selectedRating items (handleSelect items first st) = Some first
  ∧ answeredCount (responses (handleSelect items first st))
    = match responses st !! number item with
      | Some _ => answeredCount (responses st)
      | None => S (answeredCount (responses st))
      end.
Proof.
  intros Hitem.
  assert (handleSelect items first st
          = {| stage := stage st; currentIndex := currentIndex st;
               responses := <[number item := first]> (responses st) |})
    as Hfirst by (unfold handleSelect; by rewrite Hitem).
  rewrite Hfirst. split; [|split; [done|split; [done|split]]].
  - unfold handleSelect, currentItem in *. simpl. rewrite Hitem.
    by rewrite insert_insert_eq.
  - unfold selectedRating, currentItem in *. simpl. rewrite Hitem.
    apply lookup_insert_eq.
  - unfold answeredCount. simpl. rewrite map_size_insert.
    by destruct (responses st !! number item).
Qed.

Lemma handleSelect_overwrites_witness :
  currentItem sampleItems firstAnswered
  = Some (mkItem 1 "A" extraversion sociability false)
  ∧ handleSelect sampleItems 2 (handleSelect sampleItems 5 firstAnswered)
    = handleSelect sampleItems 2 firstAnswered
  ∧ answeredCount (responses (handleSelect sampleItems 5 firstAnswered))
    = answeredCount (responses firstAnswered).
Proof.
  assert (currentItem sampleItems firstAnswered
          = Some (mkItem 1 "A" extraversion sociability false)) as Hitem
    by reflexivity.
  split; [exact Hitem|].
  destruct (handleSelect_overwrites sampleItems firstAnswered _ 5 2 Hitem)
    as (Htwice & _ & _ & _ & Hcount).
  split; [exact Htwice | exact Hcount].
Defined.

(** X12: previous undoes next.  From a question that is answered and is
    not the last one, next followed by previous gives the state back
    unchanged, and next once more leads to the same following question. *)
Theorem previous_undoes_next (items : list Item) (st : State)
    (item : Item) (rating : Z) :
  currentItem items st = Some item →
  responses st !! number item = Some rating →
  rating ≠ 0 →
  (S (currentIndex st) < totalItems items)%nat →
  currentIndex (handleNext items st) = S (currentIndex st)
  ∧ handlePrevious (handleNext items st) = st
  ∧ handleNext items (handlePrevious (handleNext items st))
    = handleNext items st.
Proof.
  intros Hitem Hrating Hnonzero Hmore.
  assert (handleNext items st
          = {| stage := stage st; currentIndex := S (currentIndex st);
               responses := responses st |}) as Hnext.
  { unfold handleNext. rewrite Hitem, Hrating.
    destruct (Z.eqb_spec rating 0); [done|].
    destruct (Nat.leb_spec (totalItems items) (S (currentIndex st)));
      [lia | done]. }
  assert (handlePrevious (handleNext items st) = st) as Hback.
  { rewrite Hnext. unfold handlePrevious. cbn [currentIndex stage responses].
    destruct (Nat.eqb_spec (S (currentIndex st)) 0); [lia|].
    destruct (Z.ltb_spec (Z.of_nat (S (currentIndex st)) - 1) 0); [lia|].
    destruct st as [stage0 index0 responses0].
    cbn [currentIndex stage responses]. f_equal. lia. }
  split; [by rewrite Hnext|]. split; [done|]. by rewrite Hback.
Qed.

Lemma previous_undoes_next_witness :
  currentItem sampleItems firstAnswered
  = Some (mkItem 1 "A" extraversion sociability false)
  ∧ handlePrevious (handleNext sampleItems firstAnswered) = firstAnswered.
Proof.
  assert (currentItem sampleItems firstAnswered
          = Some (mkItem 1 "A" extraversion sociability false)) as Hitem
    by reflexivity.
  assert (responses firstAnswered
            !! number (mkItem 1 "A" extraversion sociability false) = Some 4)
    as Hrating by (vm_compute; reflexivity).
  assert (4 ≠ 0) as Hnonzero by lia.
  assert (S (currentIndex firstAnswered) < totalItems sampleItems)%nat
    as Hmore by (vm_compute; lia).
  split; [exact Hitem|].
  exact (proj1 (proj2 (previous_undoes_next sampleItems firstAnswered _ 4
                         Hitem Hrating Hnonzero Hmore))).
Defined.

Lemma empty_catalog_run (actions : list Action) (st : State) :
  stage st ≠ stage_result → currentIndex st = 0%nat → responses st = ∅ →
  stage (run [] st actions) ≠ stage_result
  ∧ currentIndex (run [] st actions) = 0%nat
  ∧ responses (run [] st actions) = ∅.
Proof.
  revert st. induction actions as [|action actions IH];
    intros st Hstage Hindex Hresponses; [done|].
  rewrite run_cons.
  destruct action as [|rating| | |]; simpl.
  - by apply IH.
  - unfold handleSelect, currentItem. rewrite lookup_nil. by apply IH.
  - unfold handleNext, currentItem. rewrite lookup_nil. by apply IH.
  - unfold handlePrevious. rewrite Hindex. by apply IH.
  - by apply IH.
Qed.

(** X13: with an empty catalog no sequence of actions ever reaches the
    result stage or records a response: after start the component renders
    nothing, and select, next and previous leave the state as it is. *)
Theorem empty_catalog_never_scores (actions : list Action) :
  let st := run [] initialState actions in
  stage st ≠ stage_result
  ∧ currentIndex st = 0%nat
  ∧ responses st = ∅
  ∧ (stage st = stage_question → render [] st = NoPage)
  ∧ (∀ rating, handleSelect [] rating st = st)
  ∧ handleNext [] st = st
  ∧ handlePrevious st = st.
Proof.
  intros st.
  destruct (empty_catalog_run actions initialState)
    as (Hstage & Hindex & Hresponses); [done..|].
  fold st in Hstage, Hindex, Hresponses.
  split; [done|]. split; [done|]. split; [done|].
  split; [|split; [|split]].
  - intros Hquestion. unfold render, currentItem.
    rewrite Hquestion, lookup_nil. by rewrite decide_False.
  - intros rating. unfold handleSelect, currentItem. by rewrite lookup_nil.
  - unfold handleNext, currentItem. by rewrite lookup_nil.
  - unfold handlePrevious. by rewrite Hindex.
Qed.

(** ** The rendered page and the flow it allows *)

Lemma render_in_question_stage (items : list Item) (st : State) (item : Item) :
  stage st = stage_question →
  currentItem items st = Some item →
  render items st = Question (renderQuestion items st item).
Proof.
  intros Hstage Hitem. unfold render. rewrite Hstage, Hitem.
  by rewrite decide_False.
Qed.

(** X14: on a question page the [disabled] flags of the two navigation
    buttons agree with the guards of their handlers: the next button is
    disabled exactly when [handleNext] would leave the state unchanged,
    and the previous button exactly when [handlePrevious] would. *)
Theorem navigation_buttons_match_handlers (items : list Item) (st : State)
    (item : Item) :
  stage st = stage_question →
  currentItem items st = Some item →
  render items st = Question (renderQuestion items st item)
  ∧ (nextDisabled (renderQuestion items st item) = true
     ↔ handleNext items st = st)
  ∧ (previousDisabled (renderQuestion items st item) = true
     ↔ handlePrevious st = st).
Proof.
  intros Hstage Hitem.
  split; [by apply render_in_question_stage|]. split.
  - unfold renderQuestion, handleNext. cbn [nextDisabled]. rewrite Hitem.
    destruct (responses st !! number item) as [selected|]; simpl; [|done].
    destruct (Z.eqb_spec selected 0); [done|].
    split; [done|]. intros Hsame. exfalso.
    destruct (totalItems items <=? S (currentIndex st))%nat.
    + apply (f_equal stage) in Hsame. simpl in Hsame. congruence.
    + apply (f_equal currentIndex) in Hsame. simpl in Hsame. lia.
  - unfold renderQuestion. cbn [previousDisabled].
    destruct (Nat.eqb_spec (currentIndex st) 0) as [Hzero|Hpos].
    + split; [|done]. intros _. unfold handlePrevious. by rewrite Hzero.
    + split; [done|]. intros Hsame. exfalso.
      apply (f_equal currentIndex) in Hsame.
      rewrite handlePrevious_index in Hsame. lia.
Qed.

Lemma navigation_buttons_match_handlers_witness :
  stage secondAnswered = stage_question
  ∧ currentItem sampleItems secondAnswered
    = Some (mkItem 2 "B" extraversion sociability true)
  ∧ nextDisabled (renderQuestion sampleItems secondAnswered
                    (mkItem 2 "B" extraversion sociability true)) = false
  ∧ handleNext sampleItems secondAnswered ≠ secondAnswered.
Proof.
  assert (stage secondAnswered = stage_question) as Hstage by reflexivity.
  assert (currentItem sampleItems secondAnswered
          = Some (mkItem 2 "B" extraversion sociability true)) as Hitem
    by reflexivity.
  assert (nextDisabled (renderQuestion sampleItems secondAnswered
                          (mkItem 2 "B" extraversion sociability true)) = false)
    as Henabled by (vm_compute; reflexivity).
  split; [exact Hstage|]. split; [exact Hitem|]. split; [exact Henabled|].
  destruct (navigation_buttons_match_handlers sampleItems secondAnswered _
              Hstage Hitem) as (_ & Hnext & _).
  intros Hsame. apply Hnext in Hsame. rewrite Henabled in Hsame.
  discriminate Hsame.
Defined.

Lemma flowInvariant_complete (items : list Item) (st : State) :
  flowInvariant items st → stage st = stage_result →
  complete items (responses st).
Proof.
  intros (_ & Hresult & Hentries) Hstage. split.
  - apply set_eq. intros n. rewrite elem_of_dom, elem_of_list_to_set. split.
    + intros [rating Hrating]. by apply (Hentries n rating).
    + intros Hn. apply list_elem_of_fmap in Hn as (item & -> & Hitem).
      by apply Hresult.
  - intros n rating Hrating. by apply (Hentries n rating).
Qed.

(** X15: over a catalog with unique item numbers, every reachable state
    in the result stage renders the result page, with the summary of a
    complete response set, and that page offers the restart action and no
    other. *)
Theorem result_stage_shows_summary (items : list Item) (st : State) :
  reachable items st →
  NoDup (number <$> items) →
  stage st = stage_result →
  ∃ summary,
    render items st = ResultPage summary
    ∧ result items (responses st) = Some summary
    ∧ complete items (responses st)
    ∧ (∀ action, offers (render items st) action ↔ action = Restart).
Proof.
  intros Hreach Hnodup Hstage.
  assert (complete items (responses st)) as Hcomplete
    by (by apply flowInvariant_complete; [apply flowInvariant_reachable|]).
  pose proof (result_guard_passed items (responses st)
                (complete_allAnswered items _ Hnodup Hcomplete)) as Hresult.
  eexists. split; [|split; [exact Hresult|split; [done|]]].
  - unfold render. rewrite Hstage, decide_True by done. by rewrite Hresult.
  - intros action. unfold render. rewrite Hstage, decide_True by done.
    rewrite Hresult. by destruct action.
Qed.

Lemma result_stage_shows_summary_witness :
  let st := run sampleItems initialState
              [Start; Select 4; Next; Select 2; Next] in
  reachable sampleItems st
  ∧ NoDup (number <$> sampleItems)
  ∧ stage st = stage_result
  ∧ ∃ summary, render sampleItems st = ResultPage summary
               ∧ result sampleItems (responses st) = Some summary.
Proof.
  intros st.
  assert (reachable sampleItems st) as Hreach.
  { exists [Start; Select 4; Next; Select 2; Next].
    split; [by_evaluation | reflexivity]. }
  assert (NoDup (number <$> sampleItems)) as Hnodup by by_evaluation.
  assert (stage st = stage_result) as Hstage by (vm_compute; reflexivity).
  split; [exact Hreach|]. split; [exact Hnodup|]. split; [exact Hstage|].
  destruct (result_stage_shows_summary sampleItems st Hreach Hnodup Hstage)
    as (summary & Hpage & Hresult & _).
  exists summary. exact (conj Hpage Hresult).
Defined.

Lemma renderQuestion_option_values (items : list Item) (st : State)
    (item : Item) :
  option_value <$> options (renderQuestion items st item) = ratingValues.
Proof. reflexivity. Qed.

Lemma offers_offeredAction (items : list Item) (st : State) (action : Action) :
  offers (render items st) action → offeredAction action.
Proof.
  destruct action as [|rating| | |]; try done.
  unfold render. simpl.
  destruct (stage st); [done| |];
    (destruct (if decide _ then _ else _); [done|]);
    (destruct (currentItem items st); [|done]);
    intros Hin; exact Hin.
Qed.

Lemma offers_keeps_intro_clean (items : list Item) (st : State)
    (action : Action) :
  (stage st = stage_intro → st = initialState) →
  offers (render items st) action →
  stage (handle items st action) = stage_intro →
  handle items st action = initialState.
Proof.
  intros Hclean Hoffers Hintro.
  destruct action as [|rating| | |]; simpl in *; try done.
  - assert (stage st = stage_intro) as Hstage.
    { unfold handleSelect in Hintro. by destruct (currentItem items st). }
    unfold render in Hoffers. by rewrite Hstage in Hoffers.
  - assert (stage st = stage_intro) as Hstage.
    { unfold handleNext in Hintro.
      destruct (currentItem items st) as [item|]; [|done].
      destruct (responses st !! number item) as [selected|]; [|done].
      destruct (selected =? 0); [done|].
      by destruct (totalItems items <=? S (currentIndex st))%nat. }
    unfold render in Hoffers. by rewrite Hstage in Hoffers.
  - assert (stage st = stage_intro) as Hstage.
    { unfold handlePrevious in Hintro.
      destruct (currentIndex st =? 0)%nat; [done|].
      by destruct (Z.of_nat (currentIndex st) - 1 <? 0). }
    unfold render in Hoffers. by rewrite Hstage in Hoffers.
Qed.

Lemma offeredRun_invariant (items : list Item) (actions : list Action)
    (st : State) :
  (stage st = stage_intro → st = initialState) →
  offeredRun items st actions →
  Forall offeredAction actions
  ∧ (stage (run items st actions) = stage_intro →
     run items st actions = initialState).
Proof.
  revert st. induction actions as [|action actions IH];
    intros st Hclean Hrun; [by split|].
  destruct Hrun as [Hoffers Hrun]. rewrite run_cons.
  destruct (IH (handle items st action)) as [Hall Hclean']; [|done|].
  - by apply offers_keeps_intro_clean.
  - split; [|done]. constructor; [|done]. by eapply offers_offeredAction.
Qed.

(** X16: along any sequence of actions each offered by the page rendered
    at that moment, the intro page only ever shows with question index 0
    and no recorded response, so that start always opens the first
    question with nothing selected; and every state so reached is one of
    the reachable states of the handlers. *)
Theorem offered_runs_start_clean (items : list Item) (actions : list Action) :
  offeredRun items initialState actions →
  let st := run items initialState actions in
  reachable items st
  ∧ (stage st = stage_intro →
     st = initialState
     ∧ (∀ action, offers (render items st) action ↔ action = Start)
     ∧ handle items st Start
       = {| stage := stage_question; currentIndex := 0%nat; responses := ∅ |}).
Proof.
  intros Hrun st.
  destruct (offeredRun_invariant items actions initialState) as [Hall Hclean];
    [done..|].
  split; [by exists actions|].
  intros Hintro. fold st in Hclean. rewrite (Hclean Hintro).
  split; [done|]. split; [|done].
  intros action. by destruct action.
Qed.

Lemma offered_runs_start_clean_witness :
  let actions := [Start; Select 4; Next; Select 2; Next; Restart] in
  offeredRun sampleItems initialState actions
  ∧ run sampleItems initialState actions = initialState.
Proof.
  intros actions.
  assert (offeredRun sampleItems initialState actions) as Hrun by by_evaluation.
  assert (stage (run sampleItems initialState actions) = stage_intro) as Hintro
    by (vm_compute; reflexivity).
  split; [exact Hrun|].
  destruct (offered_runs_start_clean sampleItems actions Hrun) as [_ Hclean].
  exact (proj1 (Hclean Hintro)).
Defined.

(** X17: on the question page of a reachable state the checked radio
    buttons are exactly the rating recorded for the current item: one
    button when the item has been answered, none otherwise. *)
Theorem recorded_rating_is_checked (items : list Item) (st : State)
    (item : Item) :
  reachable items st →
  currentItem items st = Some item →
  option_value
    <$> filter (fun option => option_checked option = true)
               (options (renderQuestion items st item))
  = match responses st !! number item with
    | Some rating => [rating]
    | None => []
    end.
Proof.
  intros Hreach Hitem.
  destruct (flowInvariant_reachable items st Hreach) as (_ & _ & Hentries).
  unfold renderQuestion. cbn [options].
  destruct (responses st !! number item) as [rating|] eqn:Hrating; [|done].
  destruct (Hentries _ _ Hrating) as [_ Hrange]. unfold isRating in Hrange.
  assert (rating = 1 ∨ rating = 2 ∨ rating = 3 ∨ rating = 4 ∨ rating = 5)
    as [->|[->|[->|[->| ->]]]] by lia; reflexivity.
Qed.

Lemma recorded_rating_is_checked_witness :
  reachable sampleItems
    (run sampleItems initialState [Start; Select 4; Next; Select 2])
  ∧ option_value
      <$> filter (fun option => option_checked option = true)
                 (options (renderQuestion sampleItems
                             (run sampleItems initialState
                                [Start; Select 4; Next; Select 2])
                             (mkItem 2 "B" extraversion sociability true)))
    = [2].
Proof.
  assert (reachable sampleItems
            (run sampleItems initialState [Start; Select 4; Next; Select 2]))
    as Hreach.
  { exists [Start; Select 4; Next; Select 2].
    split; [by_evaluation | reflexivity]. }
  split; [exact Hreach|].
  exact (recorded_rating_is_checked sampleItems _
           (mkItem 2 "B" extraversion sociability true) Hreach eq_refl).
Defined.

(** ** Answering every question in turn *)

Lemma recordAll_lookup_other (l : list Item) (ratings : list Z)
    (responses : gmap Z Z) (key : Z) :
  key ∉ number <$> l →
  recordAll responses (zip l ratings) !! key = responses !! key.
Proof.
  revert ratings responses. induction l as [|item l IH];
    intros ratings responses Hkey; [done|].
  destruct ratings as [|rating ratings]; [done|].
  rewrite fmap_cons, not_elem_of_cons in Hkey. destruct Hkey as [Hne Hkey].
  cbn [zip zip_with recordAll foldl]. fold (recordAll (<[number item := rating]> responses) (zip l ratings)).
  rewrite IH by done. by apply lookup_insert_ne.
Qed.

Lemma recordAll_lookup (l : list Item) (ratings : list Z)
    (responses : gmap Z Z) (i : nat) (item : Item) (rating : Z) :
  NoDup (number <$> l) →
  l !! i = Some item → ratings !! i = Some rating →
  recordAll responses (zip l ratings) !! number item = Some rating.
Proof.
  revert ratings responses i.
  induction l as [|first l IH]; intros ratings responses i Hnodup Hitem Hrating;
    [done|].
  destruct ratings as [|r ratings]; [done|].
  rewrite fmap_cons in Hnodup. apply NoDup_cons in Hnodup as [Hfresh Hnodup].
  cbn [zip zip_with recordAll foldl].
  fold (recordAll (<[number first := r]> responses) (zip l ratings)).
  destruct i as [|i]; simpl in Hitem, Hrating.
  - injection Hitem as ->. injection Hrating as ->.
    rewrite recordAll_lookup_other by done. apply lookup_insert_eq.
  - by apply (IH _ _ i).
Qed.

Lemma answering_from (items : list Item) (todo : list Item) :
  ∀ (answered : list Item) (st : State) (ratings : list Z),
    items = answered ++ todo → todo ≠ [] →
    currentIndex st = length answered →
    stage st = stage_question →
    length ratings = length todo →
    Forall (fun rating => rating ∈ ratingValues) ratings →
    offeredRun items st
      (concat ((fun rating => [Select rating; Next]) <$> ratings))
    ∧ run items st (concat ((fun rating => [Select rating; Next]) <$> ratings))
      = {| stage := stage_result;
           currentIndex := Nat.pred (length items);
           responses := recordAll (responses st) (zip todo ratings) |}.
Proof.
  induction todo as [|item todo IH];
    intros answered st ratings Hitems Hne Hindex Hstage Hlength Hratings;
    [done|].
  clear Hne. destruct ratings as [|rating ratings]; [done|].
  apply Forall_cons in Hratings as [Hrating Hratings].
  assert (rating ≠ 0) as Hnonzero.
  { apply ratingValues_isRating in Hrating. unfold isRating in Hrating. lia. }
  assert (currentItem items st = Some item) as Hitem.
  { unfold currentItem. rewrite Hitems, Hindex. by apply list_lookup_middle. }
  assert (handleSelect items rating st
          = {| stage := stage_question; currentIndex := length answered;
               responses := <[number item := rating]> (responses st) |})
    as Hselect by (unfold handleSelect; by rewrite Hitem, Hstage, Hindex).
  assert (currentItem items (handleSelect items rating st) = Some item)
    as Hitem'.
  { rewrite Hselect. unfold currentItem in *. simpl. by rewrite <- Hindex. }
  assert (length items = S (length answered + length todo)) as Htotal
    by (rewrite Hitems, length_app; simpl; lia).
  rewrite fmap_cons, concat_cons. cbn [app offeredRun].
  rewrite !run_cons. cbn [handle].
  assert (offers (render items st) (Select rating)) as Hoffer1.
  { rewrite (render_in_question_stage items st item) by done. exact Hrating. }
  assert (offers (render items (handleSelect items rating st)) Next) as Hoffer2.
  { rewrite (render_in_question_stage items _ item)
      by (done || by rewrite Hselect).
    rewrite Hselect. unfold renderQuestion.
    cbn [offers nextDisabled responses]. rewrite lookup_insert_eq. simpl.
    by destruct (Z.eqb_spec rating 0). }
  destruct todo as [|following todo].
  - destruct ratings; [|done]. cbn [fmap list_fmap concat offeredRun].
    assert (handleNext items (handleSelect items rating st)
            = {| stage := stage_result;
                 currentIndex := Nat.pred (length items);
                 responses := <[number item := rating]> (responses st) |})
      as ->.
    { unfold handleNext. rewrite Hitem', Hselect.
      cbn [responses currentIndex stage]. rewrite lookup_insert_eq.
      destruct (Z.eqb_spec rating 0); [done|].
      unfold totalItems.
      destruct (Nat.leb_spec (length items) (S (length answered)));
        [|simpl in Htotal; lia].
      f_equal. simpl in Htotal. lia. }
    done.
  - assert (handleNext items (handleSelect items rating st)
            = {| stage := stage_question;
                 currentIndex := S (length answered);
                 responses := <[number item := rating]> (responses st) |})
      as Hnext.
    { unfold handleNext. rewrite Hitem', Hselect.
      cbn [responses currentIndex stage]. rewrite lookup_insert_eq.
      destruct (Z.eqb_spec rating 0); [done|].
      unfold totalItems. rewrite Htotal.
      destruct (Nat.leb_spec (S (length answered + length (following :: todo)))
                             (S (length answered))) as [Hle|_]; [|done].
      simpl in Hle. lia. }
    rewrite Hnext.
    destruct (IH (answered ++ [item])
                 {| stage := stage_question;
                    currentIndex := S (length answered);
                    responses := <[number item := rating]> (responses st) |}
                 ratings) as [Hrun Hfinal].
    + by rewrite <- app_assoc.
    + done.
    + rewrite length_app. simpl. lia.
    + done.
    + simpl in Hlength |- *. lia.
    + done.
    + split; [by repeat split|]. by rewrite Hfinal.
Qed.

(** X18: for a non-empty catalog, pressing start and then, for each
    question in turn, selecting one of the offered ratings and pressing
    next is a sequence the rendered pages allow throughout; it ends in the
    result stage on the last question with a complete response set, and
    when item numbers are unique every item holds the rating given on its
    question. *)
Theorem answering_in_turn_reaches_result (items : list Item)
    (ratings : list Z) :
  items ≠ [] →
  length ratings = length items →
  Forall (fun rating => rating ∈ ratingValues) ratings →
  let st := run items initialState (answerInTurn ratings) in
  offeredRun items initialState (answerInTurn ratings)
  ∧ stage st = stage_result
  ∧ currentIndex st = Nat.pred (length items)
  ∧ responses st = recordAll ∅ (zip items ratings)
  ∧ complete items (responses st)
  ∧ (NoDup (number <$> items) →
     ∀ i item rating, items !! i = Some item → ratings !! i = Some rating →
       responses st !! number item = Some rating).
Proof.
  intros Hne Hlength Hratings st.
  destruct (answering_from items items []
              {| stage := stage_question; currentIndex := 0%nat;
                 responses := ∅ |} ratings) as [Hrun Hfinal]; try done.
  assert (offeredRun items initialState (answerInTurn ratings)) as Hoffered
    by (by split).
  assert (st = {| stage := stage_result;
                  currentIndex := Nat.pred (length items);
                  responses := recordAll ∅ (zip items ratings) |}) as Hst
    by (unfold st, answerInTurn; by rewrite run_cons).
  destruct (offeredRun_invariant items (answerInTurn ratings) initialState)
    as [Hall _]; [done..|].
  assert (flowInvariant items st) as Hinv
    by (by apply flowInvariant_run; [|apply flowInvariant_initial]).
  split; [done|]. rewrite Hst in *. cbn [stage currentIndex responses] in *.
  split; [done|]. split; [done|]. split; [done|].
  split; [by apply (flowInvariant_complete items _ Hinv)|].
  intros Hnodup i item rating Hitem Hrating.
  by apply (recordAll_lookup items ratings ∅ i).
Qed.

Lemma answering_in_turn_reaches_result_witness :
  sampleItems ≠ []
  ∧ length [4; 2] = length sampleItems
  ∧ Forall (fun rating => rating ∈ ratingValues) [4; 2]
  ∧ offeredRun sampleItems initialState (answerInTurn [4; 2])
  ∧ stage (run sampleItems initialState (answerInTurn [4; 2])) = stage_result
  ∧ complete sampleItems
      (responses (run sampleItems initialState (answerInTurn [4; 2]))).
Proof.
  assert (sampleItems ≠ []) as Hne by discriminate.
  assert (length [4; 2] = length sampleItems) as Hlength by reflexivity.
  assert (Forall (fun rating => rating ∈ ratingValues) [4; 2]) as Hratings
    by by_evaluation.
  split; [exact Hne|]. split; [exact Hlength|]. split; [exact Hratings|].
  destruct (answering_in_turn_reaches_result sampleItems [4; 2]
              Hne Hlength Hratings) as (Hrun & Hstage & _ & _ & Hcomplete & _).
  exact (conj Hrun (conj Hstage Hcomplete)).
Defined.

(** ** Changing one answer *)

Lemma sumZ_change_one (weight weight' : Item → Z) (item : Item)
    (l : list Item) :
  NoDup l →
  (∀ other, other ∈ l → other ≠ item → weight' other = weight other) →
  sumZ (weight' <$> l)
  = sumZ (weight <$> l)
    + (if decide (item ∈ l) then weight' item - weight item else 0).
Proof.
  induction 1 as [|x l Hfresh _ IH]; intros Hsame.
  - unfold sumZ. simpl. lia.
  - rewrite !fmap_cons, !sumZ_cons.
    rewrite IH by (intros other Hother; apply Hsame;
                   by apply list_elem_of_further).
    destruct (decide (x = item)) as [->|Hne].
    + rewrite (decide_True (P := item ∈ item :: l)) by apply list_elem_of_here.
      rewrite (decide_False (P := item ∈ l)) by done. lia.
    + rewrite (Hsame x) by (done || apply list_elem_of_here).
      destruct (decide (item ∈ l)) as [Hin|Hout].
      * rewrite (decide_True (P := item ∈ x :: l))
          by (by apply list_elem_of_further).
        lia.
      * rewrite (decide_False (P := item ∈ x :: l)); [lia|].
        intros Hin. apply elem_of_cons in Hin as [?|?]; [congruence | done].
Qed.

Lemma contribution_insert_other (responses : gmap Z Z) (item other : Item)
    (rating : Z) :
  number other ≠ number item →
  contribution (<[number item := rating]> responses) other
  = contribution responses other.
Proof.
  intros Hne. unfold contribution. by rewrite lookup_insert_ne.
Qed.

Lemma unique_numbers_distinct (items : list Item) (item other : Item) :
  NoDup (number <$> items) → item ∈ items → other ∈ items →
  other ≠ item → number other ≠ number item.
Proof.
  intros Hnodup Hitem Hother Hne Heq. apply Hne.
  apply list_elem_of_lookup in Hitem as [i Hi].
  apply list_elem_of_lookup in Hother as [j Hj].
  assert (j = i) as ->.
  { apply (NoDup_lookup (number <$> items) j i (number item)); [done|..].
    - by rewrite list_lookup_fmap, Hj, <- Heq.
    - by rewrite list_lookup_fmap, Hi. }
  congruence.
Qed.

(** X19: over a catalog with unique item numbers, recording a different
    rating for one item changes the total of that item's domain and of
    its facet by exactly the change in the item's own score, and leaves
    the total, and hence the average, of every other domain and facet as
    it was. *)
Theorem one_answer_moves_its_categories_only (items : list Item)
    (responses : gmap Z Z) (item : Item) (rating : Z) :
  NoDup (number <$> items) →
  item ∈ items →
  let responses' := <[number item := rating]> responses in
  let before := foldl (accumulate responses) createInitialTotals items in
  let after := foldl (accumulate responses') createInitialTotals items in
  let change := contribution responses' item - contribution responses item in
  (∀ d, readAt (Totals.domains after) d
        = readAt (Totals.domains before) d
          + (if decide (domainId item = d) then change else 0))
  ∧ (∀ f, readAt (Totals.facets after) f
          = readAt (Totals.facets before) f
            + (if decide (facetId item = f) then change else 0))
  ∧ (∀ definition, def_id definition ≠ domainId item →
       domainEntry items responses' definition
       = domainEntry items responses definition)
  ∧ (∀ definition, def_id definition ≠ facetId item →
       facetEntry items responses' definition
       = facetEntry items responses definition).
Proof.
  intros Hnodup Hitem responses' before after change.
  assert (NoDup items) as Hnodup' by (by eapply NoDup_fmap_1).
  assert (∀ P `{∀ x, Decision (P x)},
            sumZ (contribution responses' <$> filter P items)
            = sumZ (contribution responses <$> filter P items)
              + (if decide (item ∈ filter P items) then change else 0))
    as Hsum.
  { intros P Hdec. apply sumZ_change_one; [by apply NoDup_filter|].
    intros other Hother Hne. apply contribution_insert_other.
    apply list_elem_of_filter in Hother as [_ Hother].
    by apply (unique_numbers_distinct items). }
  assert (∀ d, sumZ (contribution responses' <$> itemsOfDomain items d)
               = sumZ (contribution responses <$> itemsOfDomain items d)
                 + (if decide (domainId item = d) then change else 0))
    as Hdomains.
  { intros d. unfold itemsOfDomain. rewrite Hsum.
    destruct (decide (domainId item = d)) as [Hd|Hd].
    - rewrite decide_True; [done | by apply list_elem_of_filter].
    - rewrite decide_False; [done|].
      intros Hin. by apply list_elem_of_filter in Hin as [? _]. }
  assert (∀ f, sumZ (contribution responses' <$> itemsOfFacet items f)
               = sumZ (contribution responses <$> itemsOfFacet items f)
                 + (if decide (facetId item = f) then change else 0))
    as Hfacets.
  { intros f. unfold itemsOfFacet. rewrite Hsum.
    destruct (decide (facetId item = f)) as [Hf|Hf].
    - rewrite decide_True; [done | by apply list_elem_of_filter].
    - rewrite decide_False; [done|].
      intros Hin. by apply list_elem_of_filter in Hin as [? _]. }
  split; [|split; [|split]].
  - intros d. unfold after, before. by rewrite !domainTotals_spec.
  - intros f. unfold after, before. by rewrite !facetTotals_spec.
  - intros definition Hother. unfold domainEntry. rewrite Hdomains.
    rewrite decide_False by done. by rewrite Z.add_0_r.
  - intros definition Hother. unfold facetEntry. rewrite Hfacets.
    rewrite decide_False by done. by rewrite Z.add_0_r.
Qed.

Lemma one_answer_moves_its_categories_only_witness :
  NoDup (number <$> sampleItems)
  ∧ mkItem 2 "B" extraversion sociability true ∈ sampleItems
  ∧ readAt (Totals.domains
              (foldl (accumulate (<[2 := 5]> sampleResponses))
                     createInitialTotals sampleItems)) extraversion
    = readAt (Totals.domains
                (foldl (accumulate sampleResponses)
                       createInitialTotals sampleItems)) extraversion
      + (if decide (extraversion = extraversion)
         then contribution (<[2 := 5]> sampleResponses)
                (mkItem 2 "B" extraversion sociability true)
              - contribution sampleResponses
                  (mkItem 2 "B" extraversion sociability true)
         else 0).
Proof.
  assert (NoDup (number <$> sampleItems)) as Hnodup by by_evaluation.
  assert (mkItem 2 "B" extraversion sociability true ∈ sampleItems) as Hitem
    by by_evaluation.
  split; [exact Hnodup|]. split; [exact Hitem|].
  exact (proj1 (one_answer_moves_its_categories_only sampleItems
                  sampleResponses _ 5 Hnodup Hitem) extraversion).
Defined.
